(** * Note playback of codex-chiptunes: [noteToFrequency] and [playSong]

    A shallow embedding of the two functions at the top of
    [src/app/page.tsx] and of the platform pieces they call
    (ECMAScript strings, numbers, [parseInt], [parseFloat], [Math.pow],
    [String.prototype.trim], [String.prototype.split] and the
    Web Audio calls), followed by the properties of the playback engine.

    Numbers.  An ECMAScript Number is an IEEE-754 double.  Here a Number is
    [NaN], an infinity or the real value of a finite double.  Every
    operation computes the exact real result and rounds it to the nearest
    double, ties to even, with gradual underflow, and gives an infinity
    from the overflow threshold 2^1024 - 2^970 on ([of_real]).  Two things
    are left out: the sign of zero, and the latitude ECMA-262 gives an
    engine in [Math.pow] and in literals of more than twenty significant
    digits, which are taken as correctly rounded.  Strings, tokens, the
    order of the audio calls, thrown errors and alerts are modelled as the
    code has them. *)

From Stdlib Require Import List ZArith NArith Bool String Ascii Reals Lra Lia.
Import ListNotations.

Local Open Scope N_scope.
Local Open Scope list_scope.

(** ** ECMAScript strings *)

Module JS.

(** A string is a sequence of UTF-16 code units. *)
Definition codeunit := N.
Bind Scope N_scope with codeunit.
Definition jsstring := list codeunit.

(** [js "C4"] is the string whose code units are the characters of an
    ASCII literal. *)
Definition js (s : string) : jsstring :=
  map N_of_ascii (list_ascii_of_string s).

Definition in_range (lo hi c : codeunit) : bool :=
  (N.leb lo c && N.leb c hi)%bool.

Fixpoint eqb_str (a b : jsstring) : bool :=
  match a, b with
  | [], [] => true
  | x :: a', y :: b' => (N.eqb x y && eqb_str a' b')%bool
  | _, _ => false
  end.

(** [\d] of a regular expression without the [u] flag: the digits 0-9. *)
Definition is_digit (c : codeunit) : bool := in_range 48 57 c.

(** [\s], which is also what [trim] strips: WhiteSpace and LineTerminator
    of ECMA-262 (TAB, LF, VT, FF, CR, SP, NBSP, the Unicode space
    separators, LS, PS and the byte order mark). *)
Definition is_space (c : codeunit) : bool :=
  (in_range 9 13 c || N.eqb c 32 || N.eqb c 160 || N.eqb c 5760
   || in_range 8192 8202 c || N.eqb c 8232 || N.eqb c 8233
   || N.eqb c 8239 || N.eqb c 8287 || N.eqb c 12288 || N.eqb c 65279)%bool.

Fixpoint drop_while (f : codeunit -> bool) (s : jsstring) : jsstring :=
  match s with
  | [] => []
  | c :: r => if f c then drop_while f r else s
  end.

Fixpoint take_while (f : codeunit -> bool) (s : jsstring) : jsstring :=
  match s with
  | [] => []
  | c :: r => if f c then c :: take_while f r else []
  end.

Definition trim_start (s : jsstring) : jsstring := drop_while is_space s.

(** [String.prototype.trim]. *)
Definition trim (s : jsstring) : jsstring :=
  rev (drop_while is_space (rev (drop_while is_space s))).

(** [s.split(/\s+/)].  The scan keeps the substring collected since the
    last separator in [cur]; a maximal run of white space is one
    separator.  The text before the first separator, between two
    separators and after the last one is a part even when it is empty,
    so the empty string splits into one empty part. *)
Fixpoint split_ws_from (cur : jsstring) (in_sep : bool) (s : jsstring)
  : list jsstring :=
  match s with
  | [] => [cur]
  | c :: r =>
      if is_space c then
        if in_sep then split_ws_from [] true r
        else cur :: split_ws_from [] true r
      else split_ws_from (cur ++ [c]) false r
  end.

Definition split_ws (s : jsstring) : list jsstring :=
  split_ws_from [] false s.

(** The value of a run of decimal digits, most significant first. *)
Definition digit_value (c : codeunit) : Z := Z.of_N c - 48.

Definition digits_value (ds : jsstring) : Z :=
  fold_left (fun acc c => 10 * acc + digit_value c)%Z ds 0%Z.

(** ** ECMAScript numbers *)

Inductive number :=
| NaN
| Infinity (negative : bool)
| Fin (r : R).

Definition Rneg (r : R) : bool := if Rlt_dec r 0%R then true else false.
Definition Rzero (r : R) : bool := if Req_dec_T r 0%R then true else false.

(** *** Rounding to a double

    A finite double is [m * 2^e] with [|m| < 2^53] and
    [-1074 <= e <= 971].  The binade of a real that is not zero is the
    [E] with [2^E <= |x| < 2^(E+1)]; doubles in that binade are spaced
    [2^(E-52)] apart, and [2^-1074] apart below [2^-1022]. *)
Definition binade (x : R) : Z := Int_part (ln (Rabs x) / ln 2).

Definition ulp_exponent (x : R) : Z := Z.max (binade x - 52) (-1074).

(** The integer nearest to [s]; halfway between two integers, the even
    one. *)
Definition nearest_even (s : R) : Z :=
  let f := Int_part s in
  let d := (s - IZR f)%R in
  if Rlt_dec d (1 / 2) then f
  else if Rlt_dec (1 / 2) d then (f + 1)%Z
  else if Z.even f then f else (f + 1)%Z.

(** Round to nearest, ties to even, with 53 significant bits. *)
Definition round (x : R) : R :=
  (IZR (nearest_even (x / powerRZ 2 (ulp_exponent x)))
   * powerRZ 2 (ulp_exponent x))%R.

(** Halfway between the largest double, [(2^53 - 1) * 2^971], and
    [2^1024]: from here on a result rounds to an infinity. *)
Definition overflow : R := (IZR (2 ^ 54 - 1) * powerRZ 2 970)%R.

(** The Number value for a real: what an operation returns when its
    exact result is [x]. *)
Definition of_real (x : R) : number :=
  if Rle_dec overflow (Rabs x) then Infinity (Rneg x) else Fin (round x).

(** The values [round] ranges over: 53 significant bits, no exponent
    below -1074. *)
Definition representable (x : R) : Prop :=
  exists m e : Z,
    x = (IZR m * powerRZ 2 e)%R /\ (Z.abs m < 2 ^ 53)%Z /\ (-1074 <= e)%Z.

(** An integer constant of the program text: 0 to 12, 69 and 440 are all
    doubles. *)
Definition of_Z (z : Z) : number := Fin (IZR z).

Definition neg (a : number) : number :=
  match a with
  | NaN => NaN
  | Infinity s => Infinity (negb s)
  | Fin r => Fin (- r)%R
  end.

Definition add (a b : number) : number :=
  match a, b with
  | NaN, _ | _, NaN => NaN
  | Infinity s, Infinity s' => if Bool.eqb s s' then Infinity s else NaN
  | Infinity s, Fin _ | Fin _, Infinity s => Infinity s
  | Fin x, Fin y => of_real (x + y)
  end.

Definition sub (a b : number) : number := add a (neg b).

Definition mul (a b : number) : number :=
  match a, b with
  | NaN, _ | _, NaN => NaN
  | Infinity s, Infinity s' => Infinity (xorb s s')
  | Infinity s, Fin y | Fin y, Infinity s =>
      if Rzero y then NaN else Infinity (xorb s (Rneg y))
  | Fin x, Fin y => of_real (x * y)
  end.

Definition div (a b : number) : number :=
  match a, b with
  | NaN, _ | _, NaN => NaN
  | Infinity _, Infinity _ => NaN
  | Infinity s, Fin y => Infinity (xorb s (Rneg y))
  | Fin _, Infinity _ => Fin 0%R
  | Fin x, Fin y =>
      if Rzero y then (if Rzero x then NaN else Infinity (Rneg x))
      else of_real (x / y)
  end.

(** Whether a real is an integer, and which. *)
Definition R_to_Z (r : R) : option Z :=
  if Req_dec_T r (IZR (Int_part r)) then Some (Int_part r) else None.

Definition Rabs_cmp_1 (r : R) : comparison :=
  if Rlt_dec 1%R (Rabs r) then Gt
  else if Req_dec_T (Rabs r) 1%R then Eq else Lt.

(** [Math.pow], after Number::exponentiate of ECMA-262.  For a positive
    base the exact result is the real power [Rpower b e] = exp (e * ln b);
    the double returned is taken to be the nearest one. *)
Definition Math_pow (base exponent : number) : number :=
  match exponent with
  | NaN => NaN
  | Fin e =>
      if Rzero e then Fin 1%R
      else
        match base with
        | NaN => NaN
        | Infinity false => if Rneg e then Fin 0%R else Infinity false
        | Infinity true =>
            if Rneg e then Fin 0%R
            else match R_to_Z e with
                 | Some n => Infinity (Z.odd n)
                 | None => Infinity false
                 end
        | Fin b =>
            if Rzero b then (if Rneg e then Infinity false else Fin 0%R)
            else if Rneg b then
                   match R_to_Z e with
                   | Some n => of_real (powerRZ b n)
                   | None => NaN
                   end
                 else of_real (Rpower b e)
        end
  | Infinity s =>
      match base with
      | NaN => NaN
      | Infinity _ => if s then Fin 0%R else Infinity false
      | Fin b =>
          match Rabs_cmp_1 b with
          | Gt => if s then Fin 0%R else Infinity false
          | Eq => NaN
          | Lt => if s then Infinity false else Fin 0%R
          end
      end
  end.

(** A sign in front of a numeric literal. *)
Definition read_sign (s : jsstring) : bool * jsstring :=
  match s with
  | c :: r =>
      if N.eqb c 45 then (true, r)
      else if N.eqb c 43 then (false, r)
      else (false, s)
  | [] => (false, s)
  end.

(** [parseInt(s, 10)]: leading white space is skipped, a sign is read,
    then the longest run of decimal digits; [NaN] when that run is
    empty.  The result is the double nearest to the integer the digits
    denote, an infinity when there are too many of them. *)
Definition parseInt10 (s : jsstring) : number :=
  let '(negative, s) := read_sign (trim_start s) in
  match take_while is_digit s with
  | [] => NaN
  | ds =>
      of_real (IZR (if negative then - digits_value ds else digits_value ds))
  end.

(** ExponentPart: [e] or [E], an optional sign and one or more digits.
    Text that does not start with a complete exponent part contributes
    nothing. *)
Definition read_exponent (s : jsstring) : Z :=
  match s with
  | c :: r =>
      if (N.eqb c 101 || N.eqb c 69)%bool then
        let '(negative, r') := read_sign r in
        match take_while is_digit r' with
        | [] => 0%Z
        | ds => (if negative then - digits_value ds else digits_value ds)%Z
        end
      else 0%Z
  | [] => 0%Z
  end.

(** A point and the digits after it, and the text that follows them;
    no fraction when the text does not start with a point. *)
Definition read_fraction (s : jsstring) : jsstring * jsstring :=
  match s with
  | 46 :: r => (take_while is_digit r, drop_while is_digit r)
  | _ => ([], s)
  end.

Fixpoint starts_with (p s : jsstring) : bool :=
  match p, s with
  | [], _ => true
  | x :: p', y :: s' => (N.eqb x y && starts_with p' s')%bool
  | _ :: _, [] => false
  end.

(** What the longest prefix that is a StrDecimalLiteral denotes:
    [digits] times ten to the [exponent], signed. *)
Inductive literal :=
| LNaN
| LInfinity (negative : bool)
| LDecimal (negative : bool) (digits : jsstring) (exponent : Z).

(** The longest prefix of [s] that is a StrDecimalLiteral: a sign, then
    [Infinity], or digits with an optional fraction and an optional
    exponent part, at least one digit before the exponent. *)
Definition scan_decimal (s : jsstring) : literal :=
  let '(negative, s) := read_sign s in
  if starts_with (js "Infinity") s then LInfinity negative
  else
    let ip := take_while is_digit s in
    let '(fp, r) := read_fraction (drop_while is_digit s) in
    match ip ++ fp with
    | [] => LNaN
    | ds => LDecimal negative ds (read_exponent r - Z.of_nat (List.length fp))
    end.

(** The Number value of a literal: the double nearest to its
    mathematical value, so "1e400" is [Infinity]. *)
Definition literal_value (l : literal) : number :=
  match l with
  | LNaN => NaN
  | LInfinity s => Infinity s
  | LDecimal s ds e =>
      let v := of_real (IZR (digits_value ds) * powerRZ 10 e) in
      if s then neg v else v
  end.

(** [parseFloat]: leading white space is skipped and the longest prefix
    that is a decimal literal is read; what follows it is ignored. *)
Definition parseFloat (s : jsstring) : number :=
  literal_value (scan_decimal (trim_start s)).

(** ** Error objects *)

Record error := mkError { name : jsstring; message : jsstring }.

(** [new Error(msg)]. *)
Definition Error (msg : jsstring) : error := mkError (js "Error") msg.
Definition TypeError (msg : jsstring) : error := mkError (js "TypeError") msg.
Definition RangeError (msg : jsstring) : error :=
  mkError (js "RangeError") msg.

(** [Error.prototype.toString], which string concatenation with an error
    object calls. *)
Definition toString (e : error) : jsstring :=
  match name e, message e with
  | [], m => m
  | n, [] => n
  | n, m => n ++ js ": " ++ m
  end.

(** How the evaluation of a call ends: with a value or with a thrown
    error. *)
Inductive completion (A : Type) :=
| Normal (a : A)
| Throw (e : error).
Arguments Normal {A} a.
Arguments Throw {A} e.

End JS.
Import JS.

(** ** [noteToFrequency] *)

(** [note.match(/^([A-G])(#|b)?(\d+)$/)]: the three captures, the second
    one absent when the group did not take part in the match.  A sharp or
    flat sign is no digit, so giving the optional group up never makes
    [\d+] match: the greedy choice is the only one to try. *)
Definition note_match (note : jsstring)
  : option (jsstring * option jsstring * jsstring) :=
  match note with
  | p :: rest =>
      if in_range 65 71 p then
        let '(accidental, oct) :=
          match rest with
          | a :: r =>
              if (N.eqb a 35 || N.eqb a 98)%bool then (Some [a], r)
              else (None, rest)
          | [] => (None, rest)
          end in
        match oct with
        | [] => None
        | _ :: _ => if forallb is_digit oct then Some ([p], accidental, oct)
                    else None
        end
      else None
  | [] => None
  end.

(** The object literal [semitones], in the order it is written. *)
Definition semitones : list (jsstring * number) :=
  [ (js "C", of_Z 0); (js "D", of_Z 2); (js "E", of_Z 4); (js "F", of_Z 5);
    (js "G", of_Z 7); (js "A", of_Z 9); (js "B", of_Z 11) ].

(** Property access [obj[key]]; a missing key gives [undefined]. *)
Fixpoint get (obj : list (jsstring * number)) (key : jsstring)
  : option number :=
  match obj with
  | [] => None
  | (k, v) :: obj' => if eqb_str k key then Some v else get obj' key
  end.

(** [ToNumber] of a property read: [undefined] becomes [NaN]. *)
Definition to_number (v : option number) : number :=
  match v with
  | Some n => n
  | None => NaN
  end.

(** [accidental === "#"], where [accidental] may be [undefined]. *)
Definition strict_eq (v : option jsstring) (s : jsstring) : bool :=
  match v with
  | Some x => eqb_str x s
  | None => false
  end.

Definition noteToFrequency (note : jsstring) : completion number :=
  match note_match note with
  | None => Throw (Error (js "Invalid note: " ++ note))
  | Some (pitch, accidental, oct) =>
      let sem := to_number (get semitones pitch) in
      let sem := if strict_eq accidental (js "#") then add sem (of_Z 1)
                 else sem in
      let sem := if strict_eq accidental (js "b") then sub sem (of_Z 1)
                 else sem in
      let octave := parseInt10 oct in
      let midi := add (mul (add octave (of_Z 1)) (of_Z 12)) sem in
      let diff := sub midi (of_Z 69) in
      Normal (mul (of_Z 440) (Math_pow (of_Z 2) (div diff (of_Z 12))))
  end.

(** ** The audio backend *)

Module WebAudio.

(** Audio nodes are told apart by the order of their creation. *)
Definition node := nat.
Bind Scope nat_scope with node.

Inductive target :=
| Node (n : node)
| Destination.

(** The calls [playSong] makes on the Web Audio API, with their
    arguments. *)
Inductive call :=
| NewAudioContext
| CreateOscillator (osc : node)
| CreateGain (gain : node)
| SetFrequency (osc : node) (value : number)
| SetType (osc : node) (type : jsstring)
| Connect (src : node) (dst : target)
| SetValueAtTime (gain : node) (value time : number)
| Start (osc : node) (when : number)
| Stop (osc : node) (when : number).

(** The platform under [playSong]: the clock value [ctx.currentTime]
    shows when it is read, and for every call, given the calls made so
    far, the error it throws if it throws one. *)
Record backend := mkBackend {
  currentTime : number;
  rejects : list call -> call -> option error
}.

(** What a run has done so far: the accepted audio calls and the alerts
    shown, both in order, and the number of nodes created. *)
Record world := mkWorld {
  calls : list call;
  alerts : list jsstring;
  fresh : node
}.

Definition initial : world := mkWorld [] [] 0%nat.

(** Computations that read and extend the world and may throw. *)
Definition M (A : Type) := world -> completion A * world.

Definition ret {A} (a : A) : M A := fun w => (Normal a, w).

Definition bind {A B} (m : M A) (k : A -> M B) : M B :=
  fun w =>
    match m w with
    | (Normal a, w') => k a w'
    | (Throw e, w') => (Throw e, w')
    end.

Definition lift {A} (c : completion A) : M A := fun w => (c, w).

(** [try { m } catch (e) { handler e }]. *)
Definition try_catch {A} (m : M A) (handler : error -> M A) : M A :=
  fun w =>
    match m w with
    | (Normal a, w') => (Normal a, w')
    | (Throw e, w') => handler e w'
    end.

(** [window.alert]. *)
Definition alert (msg : jsstring) : M unit :=
  fun w => (Normal tt, mkWorld (calls w) (alerts w ++ [msg]) (fresh w)).

(** A time argument, of type [double], as the Web Audio API checks it: a
    value that is not finite is a TypeError of the binding layer, a
    negative one a RangeError of the method. *)
Definition check_time (t : number) : option error :=
  match t with
  | Fin r =>
      if Rneg r then Some (RangeError (js "time must not be negative"))
      else None
  | _ => Some (TypeError (js "time must be finite"))
  end.

(** Halfway between the largest 32-bit float, [(2^24 - 1) * 2^104], and
    [2^128]: from here on a value has no float. *)
Definition float_overflow : R := (IZR (2 ^ 25 - 1) * powerRZ 2 103)%R.

(** An argument of type [float], as [AudioParam.value] and the value of
    [setValueAtTime] are: the binding layer converts it to a 32-bit
    float, and a value that is not finite or has no float is a
    TypeError. *)
Definition check_float (v : number) : option error :=
  match v with
  | Fin r =>
      if Rle_dec float_overflow (Rabs r)
      then Some (TypeError (js "value must be finite"))
      else None
  | _ => Some (TypeError (js "value must be finite"))
  end.

(** A browser with a working audio device whose clock shows [now]: it
    rejects the calls whose arguments the Web Audio API forbids and
    accepts the others. *)
Definition browser (now : number) : backend :=
  mkBackend now
    (fun _ c =>
       match c with
       | SetFrequency _ v => check_float v
       | SetValueAtTime _ v t =>
           match check_float v with
           | Some e => Some e
           | None => check_time t
           end
       | Start _ t => check_time t
       | Stop _ t => check_time t
       | _ => None
       end).

(** A stand-in for the audio device that takes every call, as a test
    double does. *)
Definition mock (now : number) : backend := mkBackend now (fun _ _ => None).

End WebAudio.
Import WebAudio.

Declare Scope audio_scope.
Delimit Scope audio_scope with audio.
Notation "x <- m ;; k" := (bind m (fun x => k))
  (at level 61, m at next level, right associativity) : audio_scope.
Notation "m ;; k" := (bind m (fun _ => k))
  (at level 61, right associativity) : audio_scope.

(** ** [playSong] *)

Section PlaySong.

Variable b : backend.

Local Open Scope audio_scope.

(** One call on the audio API: it throws what the backend says, or is
    recorded. *)
Definition invoke (c : call) : M unit :=
  fun w =>
    match rejects b (calls w) c with
    | Some e => (Throw e, w)
    | None => (Normal tt, mkWorld (calls w ++ [c]) (alerts w) (fresh w))
    end.

(** [ctx.createOscillator()] and [ctx.createGain()]: a call that returns
    a new node. *)
Definition create (mk : node -> call) : M node :=
  fun w =>
    let n := fresh w in
    match rejects b (calls w) (mk n) with
    | Some e => (Throw e, w)
    | None => (Normal n, mkWorld (calls w ++ [mk n]) (alerts w) (S n))
    end.

(** The body of the [for] loop for the pair at [parts[i]], [parts[i+1]],
    with the time cursor at [t]; it returns the cursor after [t += dur].
    The literal [0.1] is the double nearest to one tenth. *)
Definition play_pair (note durtok : jsstring) (t : number) : M number :=
  let dur := parseFloat durtok in
  freq <- lift (noteToFrequency note) ;;
  osc <- create CreateOscillator ;;
  gain <- create CreateGain ;;
  invoke (SetFrequency osc freq) ;;
  invoke (SetType osc (js "square")) ;;
  invoke (Connect osc (Node gain)) ;;
  invoke (Connect gain Destination) ;;
  invoke (SetValueAtTime gain (of_real (1 / 10)) t) ;;
  invoke (Start osc t) ;;
  invoke (Stop osc (add t dur)) ;;
  ret (add t dur).

(** [for (let i = 0; i < parts.length; i += 2)] over the parts from
    index [i] on.  A last part without a partner would read
    [parts[i + 1]] as [undefined], which [parseFloat] sees as the text
    "undefined". *)
Fixpoint play_from (parts : list jsstring) (t : number) : M unit :=
  match parts with
  | [] => ret tt
  | [note] => _ <- play_pair note (js "undefined") t ;; ret tt
  | note :: durtok :: rest =>
      t' <- play_pair note durtok t ;; play_from rest t'
  end.

(** The text of the first alert; it holds two quotation marks. *)
Definition pairs_message : jsstring :=
  js "Data must be in " ++ [34] ++ js "NOTE DURATION" ++ [34]
  ++ js " pairs, e.g. C4 0.5 D4 0.5".

(** The [try] block. *)
Definition playSong_try (data : jsstring) : M unit :=
  let parts := split_ws (trim data) in
  if negb (Nat.eqb (Nat.modulo (List.length parts) 2) 0) then
    alert pairs_message
  else
    invoke NewAudioContext ;;
    let start := currentTime b in
    play_from parts start.

Definition playSong (data : jsstring) : M unit :=
  try_catch (playSong_try data)
    (fun e => alert (js "Error playing song: " ++ toString e)).

End PlaySong.

(** The run of [playSong] from a fresh page: what the caller gets back
    and what has happened. *)
Definition run (b : backend) (data : jsstring) : completion unit * world :=
  playSong b data initial.

(** ** The specification's vocabulary *)

Module Spec.

(** The note grammar [[A-G](#|b)?[0-9]+]. *)
Definition letter (c : codeunit) : Prop := In c (js "ABCDEFG").
Definition digit (c : codeunit) : Prop := In c (js "0123456789").
Definition accidental (a : jsstring) : Prop :=
  a = [] \/ a = js "#" \/ a = js "b".

Definition NoteToken (tok : jsstring) : Prop :=
  exists l a ds,
    tok = l :: a ++ ds /\ letter l /\ accidental a
    /\ ds <> [] /\ Forall digit ds.

(** Base offsets {C:0, D:2, E:4, F:5, G:7, A:9, B:11}. *)
Definition base_offset (l : codeunit) : Z :=
  if N.eqb l 67 then 0 else if N.eqb l 68 then 2
  else if N.eqb l 69 then 4 else if N.eqb l 70 then 5
  else if N.eqb l 71 then 7 else if N.eqb l 65 then 9
  else 11.

(** A sharp adds one semitone, a flat takes one away. *)
Definition accidental_shift (a : jsstring) : Z :=
  match a with
  | [35] => 1
  | [98] => -1
  | _ => 0
  end.

(** semitone = (octave + 1) * 12 + base_offset, adjusted by the
    accidental. *)
Definition semitone (l : codeunit) (a ds : jsstring) : Z :=
  (digits_value ds + 1) * 12 + base_offset l + accidental_shift a.

(** The semitone index as the doubles give it: the octave is the double
    nearest to the number its digits denote, and the sum and the product
    are rounded. *)
Definition semitone_number (l : codeunit) (a ds : jsstring) : number :=
  add (mul (add (of_real (IZR (digits_value ds))) (of_Z 1)) (of_Z 12))
    (of_Z (base_offset l + accidental_shift a)).

(** 440 * 2^((semitone - 69) / 12), evaluated in doubles. *)
Definition frequency_of (index : number) : number :=
  mul (of_Z 440) (Math_pow (of_Z 2) (div (sub index (of_Z 69)) (of_Z 12))).

(** The same on the reals, each step rounded to the nearest double: the
    quotient, the power and the product. *)
Definition frequency_at (index : Z) : R :=
  round (440 * round (Rpower 2 (round ((IZR index - 69) / 12)))).


(** A duration token is valid when it parses as a non-negative finite
    real number. *)
Definition finite_nonneg (t : number) : Prop :=
  exists r, t = Fin r /\ (0 <= r)%R.

Definition valid_duration (tok : jsstring) : Prop :=
  finite_nonneg (parseFloat tok).

(** An unsigned decimal literal: digits, an optional fraction and an
    optional exponent part, with a digit before the exponent. *)
Definition fraction (frac : jsstring) : Prop :=
  frac = [] \/ exists fp, frac = 46 :: fp /\ Forall digit fp.

Definition exponent_part (ex : jsstring) : Prop :=
  ex = []
  \/ exists e sg ed,
      ex = e :: sg ++ ed /\ In e (js "eE")
      /\ (sg = [] \/ sg = js "+" \/ sg = js "-")
      /\ ed <> [] /\ Forall digit ed.

Definition DecimalLiteral (lit : jsstring) : Prop :=
  exists ip frac ex,
    lit = ip ++ frac ++ ex
    /\ Forall digit ip /\ fraction frac /\ exponent_part ex
    /\ (ip <> [] \/ exists c fp, frac = 46 :: c :: fp).

(** Text without a digit in it. *)
Definition non_numeric (tail : jsstring) : Prop :=
  Forall (fun c => ~ digit c) tail.

(** What an exponent part denotes: nothing, or its digits with its
    sign. *)
Definition exponent_value (ex : jsstring) : Z :=
  match ex with
  | _ :: c :: ed =>
      if N.eqb c 45 then - digits_value ed
      else if N.eqb c 43 then digits_value ed
      else digits_value (c :: ed)
  | _ => 0
  end.

(** The Number value of the decimal literal with integer digits [ip],
    fraction digits [fp] and exponent [e]: the double nearest to
    ip.fp * 10^e, an infinity when that overflows. *)
Definition decimal_value (ip fp : jsstring) (e : Z) : number :=
  of_real (IZR (digits_value (ip ++ fp))
           * powerRZ 10 (e - Z.of_nat (List.length fp))).

(** The (note, duration) pairs of a token list; none when the count is
    odd. *)
Fixpoint pairs_of (parts : list jsstring)
  : option (list (jsstring * jsstring)) :=
  match parts with
  | [] => Some []
  | [_] => None
  | n :: d :: rest => option_map (cons (n, d)) (pairs_of rest)
  end.

Definition tokens_of (pairs : list (jsstring * jsstring)) : list jsstring :=
  flat_map (fun p => [fst p; snd p]) pairs.

(** A valid song: an even token count, every note token in the grammar,
    every duration token valid. *)
Definition valid_pair (p : jsstring * jsstring) : Prop :=
  NoteToken (fst p) /\ valid_duration (snd p).

Definition valid_song (parts : list jsstring) : Prop :=
  exists pairs, pairs_of parts = Some pairs /\ Forall valid_pair pairs.

(** A scheduled tone: frequency, duration and start time on the clock of
    the audio backend.  The scheduling origin is the clock value read at
    entry; a tone that starts there has start offset zero. *)
Record SongEvent := mkEvent {
  frequency : number;
  duration : number;
  startTime : number
}.

(** The schedule of tones given by frequency and duration: the first
    starts at [t], each next one where the one before it ends. *)
Fixpoint schedule_from (t : number) (tones : list (number * number))
  : list SongEvent :=
  match tones with
  | [] => []
  | (f, d) :: rest => mkEvent f d t :: schedule_from (add t d) rest
  end.

(** The calls that make one tone sound from [t] for [dur] seconds, on the
    oscillator [osc] and the gain node created after it. *)
Definition tone_calls (osc : node) (freq t dur : number) : list call :=
  [ CreateOscillator osc; CreateGain (S osc);
    SetFrequency osc freq; SetType osc (js "square");
    Connect osc (Node (S osc)); Connect (S osc) Destination;
    SetValueAtTime (S osc) (of_real (1 / 10)) t;
    Start osc t; Stop osc (add t dur) ].

(** Realization of a schedule: each event sounds from its start time
    for [duration] seconds; [osc] is the first free node. *)
Fixpoint realize (osc : node) (events : list SongEvent) : list call :=
  match events with
  | [] => []
  | e :: es =>
      tone_calls osc (frequency e) (startTime e) (duration e)
      ++ realize (S (S osc)) es
  end.

(** A tone has been scheduled when an oscillator was told to start. *)
Definition is_start (c : call) : bool :=
  match c with
  | Start _ _ => true
  | _ => false
  end.

Definition tones_scheduled (w : world) : nat :=
  List.length (filter is_start (calls w)).

(** Calls whose arguments the Web Audio API allows: values that have a
    32-bit float, and times that are finite and not negative. *)
Definition float_value (v : number) : Prop :=
  exists r, v = Fin r /\ (Rabs r < float_overflow)%R.

Definition well_formed (c : call) : Prop :=
  match c with
  | SetFrequency _ v => float_value v
  | SetValueAtTime _ v t => float_value v /\ finite_nonneg t
  | Start _ t => finite_nonneg t
  | Stop _ t => finite_nonneg t
  | _ => True
  end.

End Spec.
Import Spec.

(** The cursor of the loop: the calls of [play_from] on tones given by
    frequency and duration, from node [osc] and time [t] on. *)
Fixpoint trace_from (osc : node) (t : number) (tones : list (number * number))
  : list call :=
  match tones with
  | [] => []
  | (f, d) :: rest =>
      tone_calls osc f t d ++ trace_from (S (S osc)) (add t d) rest
  end.

(** The time cursor after the tones. *)
Definition cursor_after (t : number) (tones : list (number * number))
  : number :=
  fold_left (fun t fd => add t (snd fd)) tones t.

(** Frequency and duration of a pair as the loop body computes them. *)
Definition tone_of (p : jsstring * jsstring) (fd : number * number) : Prop :=
  noteToFrequency (fst p) = Normal (fst fd) /\ snd fd = parseFloat (snd p).

(** The second capture: absent when the optional group matched nothing. *)
Definition capture (a : jsstring) : option jsstring :=
  match a with
  | [] => None
  | _ => Some a
  end.

(** Tones a browser takes with the time cursor at [t]: every frequency
    has a 32-bit float, and the cursor is finite and not negative before
    and after every tone. *)
Fixpoint playable_from (t : number) (tones : list (number * number))
  : Prop :=
  match tones with
  | [] => True
  | (f, d) :: rest =>
      float_value f /\ finite_nonneg t /\ finite_nonneg (add t d)
      /\ playable_from (add t d) rest
  end.

(** A number that is at least [c]: a finite one from [c] up, or
    positive infinity. *)
Definition at_least (c : R) (n : number) : Prop :=
  match n with
  | NaN => False
  | Infinity s => s = false
  | Fin r => (c <= r)%R
  end.

(** Text at which a run of digits stops: the end, or a character that is
    no digit. *)
Definition stops (s : jsstring) : Prop :=
  match s with
  | [] => True
  | c :: _ => is_digit c = false
  end.

(** ** Vocabulary of the further properties *)

(** Text of white space only, the empty text included. *)
Definition blank (s : jsstring) : bool := forallb is_space s.

(** Text without white space. *)
Definition space_free (s : jsstring) : bool :=
  forallb (fun c => negb (is_space c)) s.

(** Whether the text ends with a character that is no white space. *)
Fixpoint ends_nonspace (s : jsstring) : bool :=
  match s with
  | [] => false
  | c :: [] => negb (is_space c)
  | _ :: r => ends_nonspace r
  end.

(** A token as the loop should see it: not empty, no white space in it. *)
Definition clean (tok : jsstring) : Prop :=
  tok <> [] /\ space_free tok = true.

(** Song text laid out token by token, each token with the white space
    in front of it. *)
Definition layout (items : list (jsstring * jsstring)) : jsstring :=
  flat_map (fun it => fst it ++ snd it) items.

(** A layout of at least one token: any white space before the first
    token, some white space before each other token. *)
Definition well_laid (items : list (jsstring * jsstring)) : Prop :=
  match items with
  | [] => False
  | (pad, tok) :: rest =>
      blank pad = true /\ clean tok
      /\ Forall (fun it => fst it <> [] /\ blank (fst it) = true
                           /\ clean (snd it)) rest
  end.

(** The times at which the oscillators of a call log start and stop, in
    the order of the calls. *)
Definition start_times (cs : list call) : list number :=
  flat_map (fun c => match c with Start _ t => [t] | _ => [] end) cs.

Definition stop_times (cs : list call) : list number :=
  flat_map (fun c => match c with Stop _ t => [t] | _ => [] end) cs.

(** The calls of the loop body: never a second audio context, always the
    square waveform, always the gain 0.1. *)
Definition tone_call (c : call) : Prop :=
  match c with
  | NewAudioContext => False
  | SetType _ ty => ty = js "square"
  | SetValueAtTime _ v _ => v = of_real (1 / 10)
  | _ => True
  end.

(** A computation that shows no alert, appends loop-body calls only and
    starts at most [n] oscillators, however it ends. *)
Definition grows (n : nat) {A} (m : M A) : Prop :=
  forall w r w',
    m w = (r, w') ->
    alerts w' = alerts w
    /\ (fresh w <= fresh w')%nat
    /\ exists cs,
        calls w' = calls w ++ cs /\ Forall tone_call cs
        /\ (List.length (filter is_start cs) <= n)%nat.

(** A machine without an audio device: [window.AudioContext] and
    [window.webkitAudioContext] are both undefined, so [new AudioCtx()]
    throws a TypeError. *)
Definition no_audio : backend :=
  mkBackend (Fin 0)
    (fun _ c =>
       match c with
       | NewAudioContext =>
           Some (TypeError (js "AudioCtx is not a constructor"))
       | _ => None
       end).

(* ================================================================= *)
(** * Properties *)

(** ** The model on small inputs *)

Example tokens_of_a_song :
  split_ws (trim (js "  C4 0.5   D4 0.5 "))
  = [js "C4"; js "0.5"; js "D4"; js "0.5"].
Proof. reflexivity. Qed.

Example tokens_of_nothing : split_ws (trim (js "")) = [js ""].
Proof. reflexivity. Qed.

Example split_keeps_empty_ends :
  split_ws (js " a  b ") = [js ""; js "a"; js "b"; js ""].
Proof. reflexivity. Qed.

Example match_sharp :
  note_match (js "A#3") = Some (js "A", Some (js "#"), js "3").
Proof. reflexivity. Qed.

Example match_natural :
  note_match (js "G10") = Some (js "G", None, js "10").
Proof. reflexivity. Qed.

Example match_flat_alone : note_match (js "b4") = None.
Proof. reflexivity. Qed.

Example scan_fraction_exponent :
  scan_decimal (js ".5e-3x") = LDecimal false (js "5") (-4).
Proof. reflexivity. Qed.

Example scan_point_alone : scan_decimal (js ".") = LNaN.
Proof. reflexivity. Qed.

Example scan_infinity : scan_decimal (js "-Infinityx") = LInfinity true.
Proof. reflexivity. Qed.

Example scan_text : parseFloat (js "abc") = NaN.
Proof. reflexivity. Qed.

(** ** Characters and digit runs *)

Lemma in_range_iff lo hi c :
  in_range lo hi c = true <-> lo <= c <= hi.
Proof.
  unfold in_range. rewrite andb_true_iff, !N.leb_le. tauto.
Qed.

Lemma letter_iff c : letter c <-> in_range 65 71 c = true.
Proof.
  rewrite in_range_iff. unfold letter. cbn. lia.
Qed.

Lemma digit_iff c : digit c <-> is_digit c = true.
Proof.
  unfold is_digit. rewrite in_range_iff. unfold digit. cbn. lia.
Qed.

Lemma digits_iff ds : Forall digit ds <-> forallb is_digit ds = true.
Proof.
  rewrite forallb_forall, Forall_forall.
  split; intros H c Hc; apply digit_iff, H, Hc.
Qed.

Lemma digit_not_space c : is_digit c = true -> is_space c = false.
Proof.
  unfold is_digit, is_space. rewrite in_range_iff. intros H.
  repeat (apply orb_false_iff; split);
    try (apply N.eqb_neq; lia);
    (apply not_true_iff_false; rewrite in_range_iff; lia).
Qed.

Lemma take_while_all f ds t :
  forallb f ds = true -> take_while f (ds ++ t) = ds ++ take_while f t.
Proof.
  induction ds as [|c ds IH]; cbn; [reflexivity|].
  rewrite andb_true_iff. intros [-> H]. now rewrite IH.
Qed.

Lemma drop_while_all f ds t :
  forallb f ds = true -> drop_while f (ds ++ t) = drop_while f t.
Proof.
  induction ds as [|c ds IH]; cbn; [reflexivity|].
  rewrite andb_true_iff. intros [-> H]. now apply IH.
Qed.

Lemma take_while_digits ds :
  forallb is_digit ds = true -> take_while is_digit ds = ds.
Proof.
  intros H. rewrite <- (app_nil_r ds) at 1.
  rewrite take_while_all by exact H. cbn. apply app_nil_r.
Qed.

Lemma digits_value_app ds c :
  digits_value (ds ++ [c]) = (10 * digits_value ds + digit_value c)%Z.
Proof.
  unfold digits_value. now rewrite fold_left_app.
Qed.

Lemma digits_value_nonneg ds :
  forallb is_digit ds = true -> (0 <= digits_value ds)%Z.
Proof.
  induction ds as [|c ds IH] using rev_ind; intros H.
  - cbn. lia.
  - rewrite forallb_app in H. apply andb_true_iff in H as [H1 H2].
    cbn in H2. rewrite andb_true_r in H2.
    unfold is_digit in H2. apply in_range_iff in H2.
    rewrite digits_value_app. specialize (IH H1).
    unfold digit_value. lia.
Qed.

(** ** The note pattern *)

Lemma note_match_token l a ds :
  letter l -> accidental a -> ds <> [] -> Forall digit ds ->
  note_match (l :: a ++ ds) = Some ([l], capture a, ds).
Proof.
  intros Hl Ha Hne Hds.
  apply letter_iff in Hl. apply digits_iff in Hds.
  unfold note_match. rewrite Hl.
  destruct Ha as [-> | [-> | ->]]; cbn.
  - destruct ds as [|d ds]; [contradiction|].
    assert (Hd : is_digit d = true)
      by (cbn in Hds; apply andb_true_iff in Hds; tauto).
    unfold is_digit in Hd. apply in_range_iff in Hd.
    replace (N.eqb d 35) with false by (symmetry; apply N.eqb_neq; lia).
    replace (N.eqb d 98) with false by (symmetry; apply N.eqb_neq; lia).
    cbn [orb]. now rewrite Hds.
  - destruct ds as [|d ds]; [contradiction|]. now rewrite Hds.
  - destruct ds as [|d ds]; [contradiction|]. now rewrite Hds.
Qed.

Lemma note_match_sound tok p a oct :
  note_match tok = Some (p, a, oct) -> NoteToken tok.
Proof.
  unfold note_match. destruct tok as [|l rest]; [discriminate|].
  destruct (in_range 65 71 l) eqn:Hl; [|discriminate].
  apply letter_iff in Hl.
  destruct rest as [|c r].
  - discriminate.
  - destruct (N.eqb c 35 || N.eqb c 98)%bool eqn:Hc.
    + destruct r as [|d r']; [discriminate|].
      destruct (forallb is_digit (d :: r')) eqn:Hds; [|discriminate].
      intros _. exists l, [c], (d :: r').
      repeat split; try assumption; try discriminate.
      * apply orb_true_iff in Hc as [Hc | Hc]; apply N.eqb_eq in Hc;
          subst c; unfold accidental; cbn; auto.
      * now apply digits_iff.
    + destruct (forallb is_digit (c :: r)) eqn:Hds; [|discriminate].
      intros _. exists l, [], (c :: r).
      repeat split; try assumption; try discriminate.
      * unfold accidental; auto.
      * now apply digits_iff.
Qed.

Lemma note_match_iff tok :
  NoteToken tok <-> exists m, note_match tok = Some m.
Proof.
  split.
  - intros (l & a & ds & -> & Hl & Ha & Hne & Hds).
    eexists. now apply note_match_token.
  - intros [[[p a] oct] H]. eapply note_match_sound, H.
Qed.

(** ** Rounding to the nearest double *)

Section Rounding.

Local Open Scope R_scope.

Lemma pow2_pos k : 0 < powerRZ 2 k.
Proof. apply powerRZ_lt. lra. Qed.

Lemma pow2_add a b : powerRZ 2 (a + b) = powerRZ 2 a * powerRZ 2 b.
Proof. apply powerRZ_add. lra. Qed.

Lemma pow2_IZR n : (0 <= n)%Z -> powerRZ 2 n = IZR (2 ^ n).
Proof.
  intros H. rewrite <- (Z2Nat.id n H) at 1.
  rewrite <- pow_powerRZ, pow_IZR. now rewrite Z2Nat.id.
Qed.

Lemma pow2_lt a b : (a < b)%Z -> powerRZ 2 a < powerRZ 2 b.
Proof.
  intros H. replace b with (a + (b - a))%Z by ring.
  rewrite pow2_add, (pow2_IZR (b - a)) by lia.
  assert (1 < IZR (2 ^ (b - a))).
  { apply IZR_lt. apply Z.pow_gt_1; lia. }
  pose proof (pow2_pos a) as Ha.
  rewrite <- (Rmult_1_r (powerRZ 2 a)) at 1.
  now apply Rmult_lt_compat_l.
Qed.

Lemma pow2_le a b : (a <= b)%Z -> powerRZ 2 a <= powerRZ 2 b.
Proof.
  intros H. destruct (Z.eq_dec a b) as [-> | Hne]; [lra|].
  left. apply pow2_lt. lia.
Qed.

Lemma pow2_lt_inv a b : powerRZ 2 a < powerRZ 2 b -> (a < b)%Z.
Proof.
  intros H. destruct (Z_lt_le_dec a b) as [Hlt | Hle]; [exact Hlt|].
  apply pow2_le in Hle. lra.
Qed.

Lemma pow2_split a b : powerRZ 2 a = powerRZ 2 (a - b) * powerRZ 2 b.
Proof. rewrite <- pow2_add. f_equal. ring. Qed.

Lemma pow2_exp k : powerRZ 2 k = exp (IZR k * ln 2).
Proof. rewrite powerRZ_Rpower by lra. reflexivity. Qed.

Lemma ln2_pos : 0 < ln 2.
Proof. pose proof ln_lt_2. lra. Qed.

(** The binade of [x] is where [x] lies between two powers of two. *)
Lemma binade_spec x :
  x <> 0 -> powerRZ 2 (binade x) <= Rabs x < powerRZ 2 (binade x + 1).
Proof.
  intros Hx. pose proof (Rabs_pos_lt x Hx) as Hy.
  unfold binade.
  destruct (base_Int_part (ln (Rabs x) / ln 2)) as [H1 H2].
  set (E := Int_part (ln (Rabs x) / ln 2)) in *.
  pose proof ln2_pos as Hl.
  assert (H1' : IZR E * ln 2 <= ln (Rabs x)).
  { apply (Rmult_le_compat_r (ln 2)) in H1; [|lra].
    unfold Rdiv in H1. rewrite Rmult_assoc, Rinv_l, Rmult_1_r in H1 by lra.
    exact H1. }
  assert (H2' : ln (Rabs x) < IZR (E + 1) * ln 2).
  { rewrite plus_IZR.
    assert (H : ln (Rabs x) / ln 2 < IZR E + 1) by lra.
    apply (Rmult_lt_compat_r (ln 2)) in H; [|lra].
    unfold Rdiv in H. rewrite Rmult_assoc, Rinv_l, Rmult_1_r in H by lra.
    exact H. }
  rewrite !pow2_exp. rewrite <- (exp_ln (Rabs x) Hy) at 1 2.
  split.
  - destruct H1' as [H | H];
      [left; now apply exp_increasing | right; now f_equal].
  - now apply exp_increasing.
Qed.

Lemma Int_part_bounds s : IZR (Int_part s) <= s < IZR (Int_part s) + 1.
Proof. destruct (base_Int_part s). lra. Qed.

Lemma nearest_even_close s : Rabs (s - IZR (nearest_even s)) <= 1 / 2.
Proof.
  pose proof (Int_part_bounds s) as H. unfold nearest_even.
  destruct (Rlt_dec (s - IZR (Int_part s)) (1 / 2)) as [H1 | H1].
  - rewrite Rabs_pos_eq; lra.
  - assert (Hup : Rabs (s - IZR (Int_part s + 1)) <= 1 / 2).
    { rewrite plus_IZR, Rabs_minus_sym, Rabs_pos_eq; lra. }
    destruct (Rlt_dec (1 / 2) (s - IZR (Int_part s))) as [H2 | H2];
      [exact Hup|].
    destruct (Z.even (Int_part s)); [|exact Hup].
    rewrite Rabs_pos_eq; lra.
Qed.

(** No integer is nearer to [s] than [nearest_even s]. *)
Lemma nearest_even_nearest s k :
  Rabs (s - IZR (nearest_even s)) <= Rabs (s - IZR k).
Proof.
  pose proof (nearest_even_close s) as H.
  destruct (Z.eq_dec k (nearest_even s)) as [-> | Hne]; [lra|].
  assert (Hd : 1 <= Rabs (IZR k - IZR (nearest_even s))).
  { rewrite <- minus_IZR, Rabs_Zabs. apply IZR_le. lia. }
  replace (IZR k - IZR (nearest_even s))
    with ((s - IZR (nearest_even s)) - (s - IZR k)) in Hd by ring.
  pose proof (Rabs_triang (s - IZR (nearest_even s)) (- (s - IZR k))) as Ht.
  rewrite Rabs_Ropp in Ht.
  unfold Rminus at 1 in Hd. lra.
Qed.

Lemma nearest_even_IZR k : nearest_even (IZR k) = k.
Proof.
  pose proof (nearest_even_close (IZR k)) as H.
  rewrite <- minus_IZR, Rabs_Zabs in H.
  assert (H0 : IZR (Z.abs (k - nearest_even (IZR k))) < 1) by lra.
  apply lt_IZR in H0. lia.
Qed.

(** No multiple of the spacing at [x] is nearer to [x] than [round x]. *)
Lemma round_grid x j :
  Rabs (x - round x) <= Rabs (x - IZR j * powerRZ 2 (ulp_exponent x)).
Proof.
  unfold round. set (g := powerRZ 2 (ulp_exponent x)).
  assert (Hg : 0 < g) by apply pow2_pos.
  pose proof (nearest_even_nearest (x / g) j) as H.
  set (n := nearest_even (x / g)) in *.
  replace (x - IZR n * g) with ((x / g - IZR n) * g) by (field; lra).
  replace (x - IZR j * g) with ((x / g - IZR j) * g) by (field; lra).
  rewrite !Rabs_mult, (Rabs_pos_eq g) by lra.
  apply Rmult_le_compat_r; lra.
Qed.

Lemma round_0 : round 0 = 0.
Proof.
  unfold round. unfold Rdiv. rewrite Rmult_0_l.
  rewrite (nearest_even_IZR 0). ring.
Qed.

(** [round x] is a representable value nearest to [x]: a representable
    value with a finer spacing lies below the binade of [x], further
    away than the power of two at the bottom of that binade. *)
Lemma round_nearest x f :
  representable f -> Rabs (x - round x) <= Rabs (x - f).
Proof.
  intros (m & k & -> & Hm & Hk).
  destruct (Z_le_gt_dec (ulp_exponent x) k) as [Hle | Hgt].
  - rewrite (pow2_split k (ulp_exponent x)), <- Rmult_assoc.
    rewrite pow2_IZR by lia. rewrite <- mult_IZR. apply round_grid.
  - destruct (Req_dec x 0) as [-> | Hx].
    { rewrite round_0, Rminus_0_r, Rabs_R0. apply Rabs_pos. }
    assert (He : ulp_exponent x = (binade x - 52)%Z)
      by (unfold ulp_exponent in *; lia).
    destruct (binade_spec x Hx) as [Hlo _].
    assert (Hf : Rabs (IZR m * powerRZ 2 k) < powerRZ 2 (binade x)).
    { rewrite Rabs_mult, Rabs_Zabs, (Rabs_pos_eq (powerRZ 2 k))
        by (left; apply pow2_pos).
      apply Rlt_le_trans with (IZR (2 ^ 53) * powerRZ 2 k).
      - apply Rmult_lt_compat_r; [apply pow2_pos | now apply IZR_lt].
      - rewrite <- pow2_IZR, <- pow2_add by lia. apply pow2_le. lia. }
    set (sg := if Rlt_dec x 0 then (-1)%Z else 1%Z).
    pose proof (round_grid x (sg * 2 ^ 52)) as Hgrid.
    rewrite mult_IZR, Rmult_assoc, <- pow2_IZR, <- pow2_add, He in Hgrid
      by lia.
    replace (52 + (binade x - 52))%Z with (binade x) in Hgrid by ring.
    assert (Hh : Rabs (x - IZR sg * powerRZ 2 (binade x))
                 = Rabs x - powerRZ 2 (binade x)).
    { unfold sg. destruct (Rlt_dec x 0) as [Hneg | Hpos].
      - rewrite (Rabs_left x) in * by lra.
        rewrite Rabs_left1; lra.
      - rewrite (Rabs_pos_eq x) in * by lra.
        rewrite Rabs_pos_eq; lra. }
    pose proof (Rabs_triang_inv x (IZR m * powerRZ 2 k)). lra.
Qed.

Lemma round_representable x : representable (round x).
Proof.
  destruct (Req_dec x 0) as [-> | Hx].
  { rewrite round_0. exists 0%Z, 0%Z.
    split; [cbn; lra | split; [reflexivity | lia]]. }
  unfold round. set (e := ulp_exponent x). set (g := powerRZ 2 e).
  assert (Hg : 0 < g) by apply pow2_pos.
  set (n := nearest_even (x / g)).
  assert (He : (-1074 <= e)%Z) by (unfold e, ulp_exponent; lia).
  assert (Hs : Rabs (x / g) < IZR (2 ^ 53)).
  { destruct (binade_spec x Hx) as [_ Hhi].
    unfold Rdiv. rewrite Rabs_mult, Rabs_inv, (Rabs_pos_eq g) by lra.
    apply (Rmult_lt_reg_r g); [exact Hg|].
    rewrite Rmult_assoc, Rinv_l, Rmult_1_r by lra.
    apply Rlt_le_trans with (1 := Hhi).
    unfold g. rewrite <- pow2_IZR, <- pow2_add by lia.
    apply pow2_le. unfold e, ulp_exponent. lia. }
  assert (Hn : (Z.abs n <= 2 ^ 53)%Z).
  { pose proof (nearest_even_close (x / g)) as Hc. fold n in Hc.
    pose proof (Rabs_triang_inv (IZR n) (x / g)) as Ht.
    rewrite Rabs_minus_sym in Hc.
    assert (H : Rabs (IZR n) < IZR (2 ^ 53) + 1) by lra.
    rewrite Rabs_Zabs, <- plus_IZR in H. apply lt_IZR in H. lia. }
  destruct (Z.eq_dec (Z.abs n) (2 ^ 53)) as [Heq | Hne].
  - exists (n / 2)%Z, (e + 1)%Z. split; [|split; [|lia]].
    + rewrite pow2_add. change (powerRZ 2 1) with (2 * 1).
      fold g.
      replace (IZR (n / 2) * (g * (2 * 1))) with (IZR (2 * (n / 2)) * g)
        by (rewrite mult_IZR; ring).
      do 2 f_equal.
      assert (n = 2 ^ 53 \/ n = - 2 ^ 53)%Z as [-> | ->] by lia;
        reflexivity.
    + assert (n = 2 ^ 53 \/ n = - 2 ^ 53)%Z as [-> | ->] by lia;
        vm_compute; reflexivity.
  - exists n, e. split; [reflexivity|]. split; lia.
Qed.

(** A representable value is not changed. *)
Lemma round_id x : representable x -> round x = x.
Proof.
  intros H. pose proof (round_nearest x x H) as Hn.
  rewrite Rminus_diag, Rabs_R0 in Hn.
  destruct (Req_dec (x - round x) 0) as [E | E]; [lra|].
  apply Rabs_pos_lt in E. lra.
Qed.

(** Rounding keeps the order. *)
Lemma round_monotone x y : x <= y -> round x <= round y.
Proof.
  intros Hxy. destruct (Rle_lt_dec (round x) (round y)) as [H | H];
    [exact H|].
  pose proof (round_nearest x (round y) (round_representable y)) as H1.
  pose proof (round_nearest y (round x) (round_representable x)) as H2.
  exfalso.
  assert (Hx : (round x + round y) / 2 <= x).
  { unfold Rabs in H1.
    destruct (Rcase_abs (x - round x)), (Rcase_abs (x - round y)); lra. }
  assert (Hy : y <= (round x + round y) / 2).
  { unfold Rabs in H2.
    destruct (Rcase_abs (y - round y)), (Rcase_abs (y - round x)); lra. }
  assert (x = y) by lra. subst y. lra.
Qed.

Lemma representable_IZR z : (Z.abs z < 2 ^ 53)%Z -> representable (IZR z).
Proof.
  intros H. exists z, 0%Z. split; [cbn; ring | split; [exact H | lia]].
Qed.

Lemma representable_pow2 k : (-1074 <= k)%Z -> representable (powerRZ 2 k).
Proof.
  intros H. exists 1%Z, k. split; [ring | split; [reflexivity | exact H]].
Qed.

Lemma representable_half : representable (1 / 2).
Proof.
  exists 1%Z, (-1)%Z. split; [|split; [reflexivity | lia]].
  cbn [powerRZ]. change (Pos.to_nat 1) with 1%nat. rewrite pow_1. lra.
Qed.

Lemma pow2_minus_5 : powerRZ 2 (-5) = 1 / 32.
Proof.
  unfold powerRZ. change (Pos.to_nat 5) with 5%nat. simpl pow. field.
Qed.

(** *** The overflow threshold *)

Lemma overflow_IZR : overflow = IZR ((2 ^ 54 - 1) * 2 ^ 970).
Proof.
  unfold overflow. rewrite pow2_IZR by lia. now rewrite mult_IZR.
Qed.

Lemma below_overflow : 440 * powerRZ 2 1015 < overflow.
Proof.
  rewrite overflow_IZR, pow2_IZR, <- mult_IZR by lia.
  apply IZR_lt, Z.ltb_lt. vm_compute. reflexivity.
Qed.

(** The largest product of [noteToFrequency] that is short of the
    threshold, and the smallest one that is not. *)
Lemma finite_margin : 440 * (73 * powerRZ 2 1009) < overflow.
Proof.
  rewrite overflow_IZR, pow2_IZR, <- !mult_IZR by lia.
  apply IZR_lt, Z.ltb_lt. vm_compute. reflexivity.
Qed.

Lemma overflow_margin : overflow <= 440 * (19 * powerRZ 2 1011).
Proof.
  rewrite overflow_IZR, pow2_IZR, <- !mult_IZR by lia.
  apply IZR_le, Z.leb_le. vm_compute. reflexivity.
Qed.

Lemma representable_dyadic m k :
  (Z.abs m < 2 ^ 53)%Z -> (0 <= k <= 1074)%Z ->
  representable (IZR m / IZR (2 ^ k)).
Proof.
  intros Hm Hk. exists m, (- k)%Z. split; [|split; [exact Hm | lia]].
  rewrite powerRZ_neg', pow2_IZR by lia. reflexivity.
Qed.

(** Bounds of two roots of two, from their powers. *)
Lemma root_4_of_2 : 19 / 16 <= Rpower 2 (/ 4).
Proof.
  set (y := Rpower 2 (/ 4)).
  assert (Hy : 0 < y) by apply exp_pos.
  assert (Hp : y ^ 4 = 2).
  { unfold y. rewrite <- Rpower_pow by apply exp_pos.
    rewrite Rpower_mult. replace (/ 4 * INR 4) with 1 by (simpl; lra).
    apply Rpower_1. lra. }
  destruct (Rle_lt_dec (19 / 16) y) as [H | H]; [exact H|].
  assert (Hq : y ^ 4 <= (19 / 16) ^ 4) by (apply pow_incr; lra).
  assert ((19 / 16) ^ 4 < 2) by (simpl; lra).
  lra.
Qed.

Lemma root_16_of_8 : Rpower 2 (3 / 16) <= 73 / 64.
Proof.
  set (y := Rpower 2 (3 / 16)).
  assert (Hy : 0 < y) by apply exp_pos.
  assert (Hp : y ^ 16 = 8).
  { unfold y. rewrite <- Rpower_pow by apply exp_pos.
    rewrite Rpower_mult. replace (3 / 16 * INR 16) with (INR 3)
      by (simpl; lra).
    rewrite Rpower_pow by lra. simpl. lra. }
  destruct (Rle_lt_dec y (73 / 64)) as [H | H]; [exact H|].
  assert (Hq : (73 / 64) ^ 16 <= y ^ 16) by (apply pow_incr; lra).
  assert (8 < (73 / 64) ^ 16) by (simpl; lra).
  lra.
Qed.

Lemma pow2_1015 : IZR (2 ^ 53) <= powerRZ 2 1015.
Proof.
  rewrite <- pow2_IZR by lia. apply pow2_le. lia.
Qed.

Lemma overflow_large : IZR (2 ^ 53) < overflow.
Proof.
  pose proof below_overflow. pose proof pow2_1015.
  pose proof (pow2_pos 1015). lra.
Qed.

Lemma overflow_million : 1000000 < overflow.
Proof.
  pose proof overflow_large as H.
  assert (1000000 < IZR (2 ^ 53)) by (apply IZR_lt; reflexivity). lra.
Qed.

(** *** The Number value for a real *)

Lemma of_real_fin x : Rabs x < overflow -> of_real x = Fin (round x).
Proof.
  intros H. unfold of_real.
  destruct (Rle_dec overflow (Rabs x)); [lra | reflexivity].
Qed.

Lemma of_real_exact x :
  representable x -> Rabs x < overflow -> of_real x = Fin x.
Proof.
  intros Hr H. rewrite of_real_fin by exact H. now rewrite round_id.
Qed.

Lemma of_real_IZR z : (Z.abs z < 2 ^ 53)%Z -> of_real (IZR z) = Fin (IZR z).
Proof.
  intros H. apply of_real_exact; [now apply representable_IZR|].
  rewrite Rabs_Zabs. apply IZR_lt in H. pose proof overflow_large. lra.
Qed.

Lemma of_real_inf x : overflow <= x -> of_real x = Infinity false.
Proof.
  intros H. pose proof overflow_large as Hl.
  assert (0 < IZR (2 ^ 53)) by (apply IZR_lt; reflexivity).
  unfold of_real. rewrite Rabs_pos_eq by lra.
  destruct (Rle_dec overflow x); [|lra].
  unfold Rneg. destruct (Rlt_dec x 0); [lra | reflexivity].
Qed.

Lemma of_real_at_least c x :
  representable c -> - overflow < c -> c <= x -> at_least c (of_real x).
Proof.
  intros Hc Hlo Hx. unfold of_real.
  destruct (Rle_dec overflow (Rabs x)) as [Ho | Ho]; cbn.
  - unfold Rneg. destruct (Rlt_dec x 0) as [Hn | Hn]; [|reflexivity].
    rewrite Rabs_left in Ho by exact Hn. lra.
  - rewrite <- (round_id c Hc). now apply round_monotone.
Qed.

(** A result between two representable bounds below the threshold is
    finite and stays between them. *)
Lemma of_real_between lo hi x :
  representable lo -> representable hi ->
  - overflow < lo -> hi < overflow -> lo <= x <= hi ->
  of_real x = Fin (round x) /\ lo <= round x <= hi.
Proof.
  intros Hlo Hhi Hl Hh [H1 H2]. split.
  - apply of_real_fin. apply Rabs_def1; lra.
  - split.
    + rewrite <- (round_id lo Hlo). now apply round_monotone.
    + rewrite <- (round_id hi Hhi). now apply round_monotone.
Qed.

(** *** Rounding at work *)

Lemma binade_unique x k :
  powerRZ 2 k <= Rabs x < powerRZ 2 (k + 1) -> binade x = k.
Proof.
  intros [H1 H2].
  assert (Hx : x <> 0).
  { intros ->. rewrite Rabs_R0 in H1. pose proof (pow2_pos k). lra. }
  destruct (binade_spec x Hx) as [H3 H4].
  assert (binade x < k + 1)%Z by (apply pow2_lt_inv; lra).
  assert (k < binade x + 1)%Z by (apply pow2_lt_inv; lra).
  lia.
Qed.

(** Halfway between two doubles the even one is taken: 2^53 + 1 is no
    double, and adding 1 to 2^53 gives 2^53 again. *)
Example add_ties_to_even :
  add (Fin (IZR (2 ^ 53))) (Fin 1) = Fin (IZR (2 ^ 53)).
Proof.
  assert (H53 : IZR (2 ^ 53) = 9007199254740992) by reflexivity.
  assert (H52 : IZR (2 ^ 52) = 4503599627370496) by reflexivity.
  pose proof below_overflow as Ho. pose proof pow2_1015 as Hp.
  cbn [add]. rewrite of_real_fin by (rewrite Rabs_pos_eq; lra).
  f_equal. unfold round.
  assert (Hb : binade (IZR (2 ^ 53) + 1) = 53%Z).
  { apply binade_unique. rewrite Rabs_pos_eq by lra.
    rewrite !pow2_IZR by lia.
    assert (IZR (2 ^ (53 + 1)) = 18014398509481984) by reflexivity. lra. }
  unfold ulp_exponent. rewrite Hb.
  replace (Z.max (53 - 52) (-1074)) with 1%Z by reflexivity.
  change (powerRZ 2 1) with (2 * 1).
  assert (Hn : nearest_even ((IZR (2 ^ 53) + 1) / (2 * 1)) = (2 ^ 52)%Z).
  { unfold nearest_even.
    assert (Hi : Int_part ((IZR (2 ^ 53) + 1) / (2 * 1)) = (2 ^ 52)%Z).
    { symmetry. apply Int_part_spec. lra. }
    rewrite Hi.
    destruct (Rlt_dec ((IZR (2 ^ 53) + 1) / (2 * 1) - IZR (2 ^ 52)) (1 / 2));
      [lra|].
    destruct (Rlt_dec (1 / 2) ((IZR (2 ^ 53) + 1) / (2 * 1) - IZR (2 ^ 52)));
      [lra|].
    reflexivity. }
  rewrite Hn. lra.
Qed.

(** So the sum of doubles is not associative. *)
Example add_not_associative :
  add (add (Fin (IZR (2 ^ 53))) (Fin 1)) (Fin 1)
  <> add (Fin (IZR (2 ^ 53))) (add (Fin 1) (Fin 1)).
Proof.
  rewrite !add_ties_to_even.
  replace (add (Fin 1) (Fin 1)) with (Fin 2).
  2:{ cbn [add]. symmetry. replace (1 + 1) with (IZR 2) by lra.
      apply (of_real_IZR 2). reflexivity. }
  cbn [add]. replace (IZR (2 ^ 53) + 2) with (IZR (2 ^ 53 + 2))
    by (rewrite plus_IZR; reflexivity).
  rewrite of_real_exact.
  - intros H. inversion H as [H']. apply eq_IZR in H'. discriminate H'.
  - exists (2 ^ 52 + 1)%Z, 1%Z. split; [|split; [reflexivity | lia]].
    change (powerRZ 2 1) with (2 * 1).
    replace (IZR (2 ^ 53 + 2)) with 9007199254740994 by reflexivity.
    replace (IZR (2 ^ 52 + 1)) with 4503599627370497 by reflexivity. lra.
  - pose proof overflow_large as Ho.
    replace (IZR (2 ^ 53 + 2)) with 9007199254740994 by reflexivity.
    assert (H53 : IZR (2 ^ 53) = 9007199254740992) by reflexivity.
    pose proof below_overflow. pose proof pow2_1015.
    rewrite Rabs_pos_eq by lra. lra.
Qed.

End Rounding.

(** ** Arithmetic on numbers *)

Lemma Rzero_false r : r <> 0%R -> Rzero r = false.
Proof.
  intros H. unfold Rzero. now destruct (Req_dec_T r 0).
Qed.

Lemma Rneg_false r : (0 <= r)%R -> Rneg r = false.
Proof.
  intros H. unfold Rneg. destruct (Rlt_dec r 0); [lra | reflexivity].
Qed.

Lemma Rneg_true r : (r < 0)%R -> Rneg r = true.
Proof.
  intros H. unfold Rneg. destruct (Rlt_dec r 0); [reflexivity | lra].
Qed.

(** Sums and products of integers are exact below 2^53. *)
Lemma add_IZR x y :
  (Z.abs (x + y) < 2 ^ 53)%Z ->
  add (Fin (IZR x)) (Fin (IZR y)) = Fin (IZR (x + y)).
Proof.
  intros H. cbn [add]. rewrite <- plus_IZR. now apply of_real_IZR.
Qed.

Lemma mul_IZR x y :
  (Z.abs (x * y) < 2 ^ 53)%Z ->
  mul (Fin (IZR x)) (Fin (IZR y)) = Fin (IZR (x * y)).
Proof.
  intros H. cbn [mul]. rewrite <- mult_IZR. now apply of_real_IZR.
Qed.

Lemma sub_IZR x y :
  (Z.abs (x - y) < 2 ^ 53)%Z ->
  sub (Fin (IZR x)) (Fin (IZR y)) = Fin (IZR (x - y)).
Proof.
  intros H. unfold sub. cbn [neg]. rewrite <- opp_IZR.
  now rewrite add_IZR.
Qed.

(** Lower bounds pass through the operations of [noteToFrequency]. *)
Lemma add_at_least c c' k a :
  at_least c a -> representable c' -> (- overflow < c')%R ->
  (c' <= c + k)%R ->
  at_least c' (add a (Fin k)).
Proof.
  destruct a as [|s|r]; cbn [at_least add]; intros Ha Hc Hlo Hle.
  - contradiction.
  - exact Ha.
  - apply of_real_at_least; [assumption | assumption | lra].
Qed.

Lemma mul_at_least c c' k a :
  at_least c a -> representable c' -> (- overflow < c')%R ->
  (0 < k)%R -> (c' <= c * k)%R ->
  at_least c' (mul a (Fin k)).
Proof.
  destruct a as [|s|r]; cbn [at_least mul]; intros Ha Hc Hlo Hk Hle.
  - contradiction.
  - rewrite Rzero_false, Rneg_false by lra. subst s. reflexivity.
  - apply of_real_at_least; [assumption | assumption |].
    apply Rle_trans with (1 := Hle). apply Rmult_le_compat_r; lra.
Qed.

Lemma div_at_least c c' k a :
  at_least c a -> representable c' -> (- overflow < c')%R ->
  (0 < k)%R -> (c' * k <= c)%R ->
  at_least c' (div a (Fin k)).
Proof.
  destruct a as [|s|r]; cbn [at_least div]; intros Ha Hc Hlo Hk Hle.
  - contradiction.
  - rewrite Rneg_false by lra. subst s. reflexivity.
  - rewrite Rzero_false by lra.
    apply of_real_at_least; [assumption | assumption |].
    apply (Rmult_le_reg_r k); [exact Hk|].
    unfold Rdiv. rewrite Rmult_assoc, Rinv_l, Rmult_1_r by lra. lra.
Qed.

(** Two to a power that is at least [l] is at least any representable
    value up to 2^l. *)
Lemma pow2_at_least l b x :
  at_least l x -> representable b -> (0 < b)%R ->
  (b <= Rpower 2 l)%R -> ((l <= 0)%R -> (b <= 1)%R) ->
  at_least b (Math_pow (Fin 2) x).
Proof.
  intros Hx Hb Hpos Hle H1. destruct x as [|s|e]; cbn [at_least] in Hx.
  - contradiction.
  - subst s. cbn [Math_pow]. unfold Rabs_cmp_1.
    rewrite Rabs_pos_eq by lra.
    destruct (Rlt_dec 1 2); [reflexivity | lra].
  - unfold Math_pow. unfold Rzero at 1.
    destruct (Req_dec_T e 0) as [-> | He].
    + cbn [at_least]. now apply H1.
    + rewrite (Rzero_false 2), (Rneg_false 2) by lra.
      apply of_real_at_least;
        [exact Hb | pose proof overflow_million; lra |].
      apply Rle_trans with (1 := Hle). apply Rle_Rpower; lra.
Qed.

Lemma at_least_weaken c c' n : (c' <= c)%R -> at_least c n -> at_least c' n.
Proof.
  intros Hc. destruct n as [|s|r]; cbn; [tauto | tauto | lra].
Qed.

(** ** [noteToFrequency] on the tokens of the grammar *)

Lemma get_semitones l :
  letter l -> get semitones [l] = Some (of_Z (base_offset l)).
Proof.
  unfold letter. cbn.
  intros [<- | [<- | [<- | [<- | [<- | [<- | [<- | []]]]]]]]; reflexivity.
Qed.

Lemma base_offset_range l : (0 <= base_offset l <= 11)%Z.
Proof.
  unfold base_offset.
  repeat match goal with |- context [N.eqb ?x ?y] => destruct (N.eqb x y) end;
    lia.
Qed.

Lemma accidental_shift_range a : (-1 <= accidental_shift a <= 1)%Z.
Proof.
  unfold accidental_shift.
  destruct a as [|c [|d r]]; try lia.
  - destruct c as [|p]; [lia|].
    do 7 (destruct p as [p|p|]; try lia).
  - destruct c as [|p]; [lia|].
    do 7 (destruct p as [p|p|]; try lia).
Qed.

Lemma read_sign_plain c r :
  is_digit c = true \/ c = 46 -> read_sign (c :: r) = (false, c :: r).
Proof.
  intros H. unfold read_sign.
  assert (c <> 45 /\ c <> 43) as [H1 H2].
  { destruct H as [H | ->]; [|lia].
    unfold is_digit in H. apply in_range_iff in H. lia. }
  apply N.eqb_neq in H1, H2. now rewrite H1, H2.
Qed.

Lemma parseInt10_digits ds :
  ds <> [] -> Forall digit ds ->
  parseInt10 ds = of_real (IZR (digits_value ds)).
Proof.
  intros Hne Hds. apply digits_iff in Hds.
  destruct ds as [|d ds]; [contradiction|].
  assert (Hd : is_digit d = true)
    by (cbn in Hds; apply andb_true_iff in Hds; tauto).
  unfold parseInt10, trim_start. cbn [drop_while].
  rewrite (digit_not_space d Hd).
  rewrite read_sign_plain by (now left).
  rewrite take_while_digits by exact Hds. reflexivity.
Qed.

(** [sem++] and [sem--] on a base offset are exact. *)
Lemma accidental_sem a s :
  accidental a -> (0 <= s <= 11)%Z ->
  (if strict_eq (capture a) (js "b")
   then sub (if strict_eq (capture a) (js "#") then add (of_Z s) (of_Z 1)
             else of_Z s) (of_Z 1)
   else if strict_eq (capture a) (js "#") then add (of_Z s) (of_Z 1)
        else of_Z s)
  = of_Z (s + accidental_shift a).
Proof.
  intros [-> | [-> | ->]] Hs; cbn [capture strict_eq eqb_str js map
    list_ascii_of_string N_of_ascii N.eqb Pos.eqb andb accidental_shift];
    unfold of_Z.
  - now rewrite Z.add_0_r.
  - cbn. apply add_IZR. lia.
  - cbn. apply sub_IZR. lia.
Qed.

(** On a token of the grammar [noteToFrequency] returns the
    equal-temperament formula, evaluated in doubles on the semitone index
    the doubles give. *)
Lemma noteToFrequency_token l a ds :
  letter l -> accidental a -> ds <> [] -> Forall digit ds ->
  noteToFrequency (l :: a ++ ds)
  = Normal (frequency_of (semitone_number l a ds)).
Proof.
  intros Hl Ha Hne Hds. unfold noteToFrequency.
  rewrite (note_match_token l a ds Hl Ha Hne Hds).
  rewrite (get_semitones l Hl). cbv zeta. cbn [to_number].
  rewrite (accidental_sem a (base_offset l) Ha (base_offset_range l)).
  rewrite (parseInt10_digits ds Hne Hds).
  reflexivity.
Qed.

Lemma digits_nonneg ds : Forall digit ds -> (0 <= digits_value ds)%Z.
Proof.
  intros H. apply digits_value_nonneg. now apply digits_iff.
Qed.

(** While the octave number is small the semitone index is computed
    without rounding. *)
Lemma semitone_number_exact l a ds :
  Forall digit ds -> (digits_value ds <= 2 ^ 40)%Z ->
  semitone_number l a ds = Fin (IZR (semitone l a ds)).
Proof.
  intros Hds Hv. pose proof (digits_nonneg ds Hds) as H0.
  pose proof (base_offset_range l). pose proof (accidental_shift_range a).
  unfold semitone_number, semitone, of_Z.
  rewrite of_real_IZR by lia.
  rewrite add_IZR by lia. rewrite mul_IZR by lia. rewrite add_IZR by lia.
  do 2 f_equal. ring.
Qed.

(** The semitone index is at least 11 plus twelve times any lower bound
    of the octave number, however large the octave number is. *)
Lemma semitone_number_at_least l a ds c :
  Forall digit ds -> (0 <= c <= 2000)%Z -> (c <= digits_value ds)%Z ->
  at_least (IZR (12 * c + 11)) (semitone_number l a ds).
Proof.
  intros Hds Hc Hv.
  pose proof (base_offset_range l). pose proof (accidental_shift_range a).
  pose proof overflow_large as Ho.
  assert (H53 : (0 < IZR (2 ^ 53))%R) by (apply IZR_lt; reflexivity).
  assert (Hsmall : forall z, (Z.abs z < 2 ^ 53)%Z ->
                     (- overflow < IZR z)%R).
  { intros z Hz. apply IZR_lt in Hz. rewrite <- Rabs_Zabs in Hz.
    apply Rabs_def2 in Hz. lra. }
  unfold semitone_number, of_Z.
  apply (add_at_least (IZR (12 * c + 12))).
  - apply (mul_at_least (IZR (c + 1))).
    + apply (add_at_least (IZR c)).
      * apply of_real_at_least.
        -- apply representable_IZR. lia.
        -- apply Hsmall. lia.
        -- now apply IZR_le.
      * apply representable_IZR. lia.
      * apply Hsmall. lia.
      * rewrite plus_IZR. lra.
    + apply representable_IZR. lia.
    + apply Hsmall. lia.
    + lra.
    + rewrite <- mult_IZR. apply IZR_le. lia.
  - apply representable_IZR. lia.
  - apply Hsmall. lia.
  - rewrite <- plus_IZR. apply IZR_le. lia.
Qed.

Section Frequency.

Local Open Scope R_scope.

(** The exponent of the formula, from a lower bound of the index. *)
Lemma exponent_at_least idx (c : Z) (e : R) :
  (-1000 <= c <= 100000)%Z -> representable e -> - overflow < e ->
  e * 12 <= IZR c - 69 ->
  at_least (IZR c) idx ->
  at_least e (div (sub idx (of_Z 69)) (of_Z 12)).
Proof.
  intros Hc Hrep Hlo He Hidx.
  pose proof overflow_large as Ho.
  assert (H53 : 0 < IZR (2 ^ 53)) by (apply IZR_lt; reflexivity).
  assert (Hsmall : forall z, (Z.abs z < 2 ^ 53)%Z -> - overflow < IZR z).
  { intros z Hz. apply IZR_lt in Hz. rewrite <- Rabs_Zabs in Hz.
    apply Rabs_def2 in Hz. lra. }
  unfold sub, of_Z. cbn [neg].
  apply (div_at_least (IZR (c - 69))).
  - apply (add_at_least (IZR c)); [exact Hidx | | |].
    + apply representable_IZR. lia.
    + apply Hsmall. lia.
    + rewrite minus_IZR. lra.
  - exact Hrep.
  - exact Hlo.
  - lra.
  - rewrite minus_IZR. exact He.
Qed.


(** 2^1015.1875 is at most 73 * 2^1009, and 2^1015.25 is at least
    19 * 2^1011. *)
Lemma power_below : Rpower 2 (16243 / 16) <= 73 * powerRZ 2 1009.
Proof.
  replace (16243 / 16) with (IZR 1015 + 3 / 16) by lra.
  rewrite Rpower_plus, <- powerRZ_Rpower by lra.
  replace 1015%Z with (6 + 1009)%Z by reflexivity.
  rewrite pow2_add. replace (powerRZ 2 6) with 64 by (simpl; lra).
  pose proof root_16_of_8. pose proof (pow2_pos 1009). nra.
Qed.

Lemma power_above : 19 * powerRZ 2 1011 <= Rpower 2 (4061 / 4).
Proof.
  replace (4061 / 4) with (IZR 1015 + / 4) by lra.
  rewrite Rpower_plus, <- powerRZ_Rpower by lra.
  replace 1015%Z with (4 + 1011)%Z by reflexivity.
  rewrite pow2_add. replace (powerRZ 2 4) with 16 by (simpl; lra).
  pose proof root_4_of_2. pose proof (pow2_pos 1011). nra.
Qed.

(** From the index 12252 on, the index of "C1020", the product
    overflows. *)
Lemma frequency_of_overflow idx :
  at_least 12252 idx -> frequency_of idx = Infinity false.
Proof.
  intros Hidx. unfold frequency_of.
  pose proof overflow_million as Ho.
  assert (Hx : at_least (4061 / 4) (div (sub idx (of_Z 69)) (of_Z 12))).
  { apply (exponent_at_least idx 12252 (4061 / 4));
      [lia | | lra | lra | exact Hidx].
    apply (representable_dyadic 4061 2); [reflexivity | lia]. }
  apply (pow2_at_least (4061 / 4) (19 * powerRZ 2 1011)) in Hx.
  - fold (of_Z 2) in Hx.
    destruct (Math_pow (of_Z 2) (div (sub idx (of_Z 69)) (of_Z 12)))
      as [|s|p]; cbn [at_least] in Hx.
    + contradiction.
    + subst s. unfold of_Z. cbn [mul].
      now rewrite Rzero_false, Rneg_false by lra.
    + unfold of_Z. cbn [mul]. apply of_real_inf.
      pose proof overflow_margin. lra.
  - exists 19%Z, 1011%Z. split; [reflexivity | split; [reflexivity | lia]].
  - pose proof (pow2_pos 1011). lra.
  - exact power_above.
  - lra.
Qed.

(** Up to the index 12251, the index of "B1019", nothing overflows: the
    result is the formula on the reals with its three roundings, and it
    is at least 1 Hz. *)
Lemma frequency_of_finite s :
  (11 <= s <= 12251)%Z ->
  frequency_of (Fin (IZR s)) = Fin (frequency_at s)
  /\ 1 <= frequency_at s.
Proof.
  intros Hs.
  pose proof overflow_million as Ho. pose proof finite_margin as Hb.
  pose proof (pow2_pos 1009) as H1009.
  assert (Hrep : forall z, (Z.abs z < 2 ^ 53)%Z -> representable (IZR z))
    by exact representable_IZR.
  unfold frequency_of, frequency_at, of_Z.
  rewrite sub_IZR by lia. cbn [div]. rewrite Rzero_false by lra.
  replace ((IZR s - 69) / 12) with (IZR (s - 69) / 12)
    by (rewrite minus_IZR; reflexivity).
  set (u := IZR (s - 69) / 12).
  assert (Hu : -5 <= u <= 16243 / 16).
  { unfold u. rewrite minus_IZR.
    assert (11 <= IZR s <= 12251) by (split; apply IZR_le; lia). lra. }
  destruct (of_real_between (-5) (16243 / 16) u) as [-> Hx];
    [apply (Hrep (-5)%Z); reflexivity
     | apply (representable_dyadic 16243 4); [reflexivity | lia]
     | lra | lra | exact Hu |].
  set (x := round u) in *.
  pose proof pow2_minus_5 as H32.
  assert (Hpow : powerRZ 2 (-5) <= Rpower 2 x <= 73 * powerRZ 2 1009).
  { split.
    - rewrite powerRZ_Rpower by lra. apply Rle_Rpower; lra.
    - apply Rle_trans with (2 := power_below). apply Rle_Rpower; lra. }
  assert (Hmp : Math_pow (Fin 2) (Fin x) = Fin (round (Rpower 2 x))
                /\ powerRZ 2 (-5) <= round (Rpower 2 x)
                   <= 73 * powerRZ 2 1009).
  { destruct (of_real_between (powerRZ 2 (-5)) (73 * powerRZ 2 1009)
                (Rpower 2 x)) as [Hfin Hbd].
    - apply representable_pow2. lia.
    - exists 73%Z, 1009%Z.
      split; [reflexivity | split; [reflexivity | lia]].
    - lra.
    - lra.
    - exact Hpow.
    - split; [|exact Hbd].
      unfold Math_pow. unfold Rzero at 1.
      destruct (Req_dec_T x 0) as [-> | Hx0].
      + rewrite Rpower_O by lra. f_equal. symmetry. apply round_id.
        apply (Hrep 1%Z). reflexivity.
      + now rewrite (Rzero_false 2), (Rneg_false 2) by lra. }
  destruct Hmp as [-> Hbd]. set (p := round (Rpower 2 x)) in *.
  cbn [mul].
  destruct (of_real_between 1 (440 * (73 * powerRZ 2 1009)) (440 * p))
    as [-> Hq].
  - apply (Hrep 1%Z). reflexivity.
  - exists (440 * 73)%Z, 1009%Z. split; [|split; [reflexivity | lia]].
    rewrite mult_IZR. ring.
  - lra.
  - exact Hb.
  - lra.
  - split; [reflexivity | tauto].
Qed.


(** Up to the index of A4 the frequency is at most 440 Hz. *)
Lemma frequency_at_low s :
  (11 <= s <= 69)%Z -> 1 <= frequency_at s <= 440.
Proof.
  intros Hs. unfold frequency_at.
  assert (Hrep : forall z, (Z.abs z < 2 ^ 53)%Z -> representable (IZR z))
    by exact representable_IZR.
  assert (Hss : 11 <= IZR s <= 69) by (split; apply IZR_le; lia).
  set (u := (IZR s - 69) / 12).
  assert (Hx : -5 <= round u <= 0).
  { split.
    - rewrite <- (round_id (-5)) by (apply (Hrep (-5)%Z); reflexivity).
      apply round_monotone. unfold u. lra.
    - rewrite <- round_0. apply round_monotone. unfold u. lra. }
  set (x := round u) in *.
  pose proof pow2_minus_5 as H32.
  assert (HP : powerRZ 2 (-5) <= Rpower 2 x <= Rpower 2 0).
  { rewrite powerRZ_Rpower by lra. split; apply Rle_Rpower; lra. }
  rewrite Rpower_O in HP by lra.
  assert (Hp : powerRZ 2 (-5) <= round (Rpower 2 x) <= 1).
  { split.
    - rewrite <- (round_id (powerRZ 2 (-5)))
        by (apply representable_pow2; lia).
      apply round_monotone. lra.
    - rewrite <- (round_id 1) by (apply (Hrep 1%Z); reflexivity).
      apply round_monotone. lra. }
  set (p := round (Rpower 2 x)) in *.
  split.
  - rewrite <- (round_id 1) by (apply (Hrep 1%Z); reflexivity).
    apply round_monotone. lra.
  - apply Rle_trans with (round 440).
    + apply round_monotone. lra.
    + right. apply round_id, (Hrep 440%Z). reflexivity.
Qed.

End Frequency.

(** On a token whose semitone index is at most 12251 the frequency is
    finite. *)
Lemma noteToFrequency_small l a ds :
  letter l -> accidental a -> ds <> [] -> Forall digit ds ->
  (semitone l a ds <= 12251)%Z ->
  noteToFrequency (l :: a ++ ds) = Normal (Fin (frequency_at (semitone l a ds)))
  /\ (1 <= frequency_at (semitone l a ds))%R.
Proof.
  intros Hl Ha Hne Hds Hs.
  pose proof (digits_nonneg ds Hds).
  pose proof (base_offset_range l). pose proof (accidental_shift_range a).
  rewrite (noteToFrequency_token l a ds Hl Ha Hne Hds).
  rewrite (semitone_number_exact l a ds Hds) by (unfold semitone in Hs; lia).
  destruct (frequency_of_finite (semitone l a ds)) as [-> Hpos].
  - split; [unfold semitone; lia | exact Hs].
  - now split.
Qed.

(** On a token whose semitone index is at least 12252 the frequency is
    [Infinity]. *)
Lemma noteToFrequency_large l a ds :
  letter l -> accidental a -> ds <> [] -> Forall digit ds ->
  (12252 <= semitone l a ds)%Z ->
  noteToFrequency (l :: a ++ ds) = Normal (Infinity false).
Proof.
  intros Hl Ha Hne Hds Hs.
  rewrite (noteToFrequency_token l a ds Hl Ha Hne Hds).
  f_equal. apply frequency_of_overflow.
  destruct (Z_le_gt_dec (digits_value ds) 2000) as [Hsmall | Hbig].
  - rewrite (semitone_number_exact l a ds Hds) by lia.
    cbn [at_least]. now apply IZR_le.
  - apply (at_least_weaken (IZR (12 * 2000 + 11))).
    + apply IZR_le. lia.
    + apply (semitone_number_at_least l a ds 2000 Hds); lia.
Qed.


(** ** The pitch resolver *)



(** C7.  [noteToFrequency] throws its "Invalid note" error exactly on
    the tokens outside the grammar [[A-G](#|b)?[0-9]+], and returns a
    frequency on every token of the grammar; the empty token, "H4",
    "C##4", "C", a lowercase letter and two accidentals are rejected. *)
Theorem noteToFrequency_fails_iff :
  (forall tok,
      noteToFrequency tok = Throw (Error (js "Invalid note: " ++ tok))
      <-> ~ NoteToken tok)
  /\ (forall tok,
         (exists f, noteToFrequency tok = Normal f) <-> NoteToken tok)
  /\ Forall (fun tok =>
               noteToFrequency tok
               = Throw (Error (js "Invalid note: " ++ tok)))
       [js ""; js "H4"; js "C##4"; js "C"; js "c4"; js "C#b4"].
Proof.
  assert (Hthrow : forall tok,
             noteToFrequency tok = Throw (Error (js "Invalid note: " ++ tok))
             <-> note_match tok = None).
  { intros tok. unfold noteToFrequency.
    destruct (note_match tok) as [[[p a] oct]|]; split;
      try discriminate; reflexivity. }
  assert (Hnormal : forall tok,
             (exists f, noteToFrequency tok = Normal f)
             <-> exists m, note_match tok = Some m).
  { intros tok. unfold noteToFrequency.
    destruct (note_match tok) as [[[p a] oct]|]; split.
    - intros _. eexists. reflexivity.
    - intros _. eexists. reflexivity.
    - intros [f Hf]. discriminate.
    - intros [m Hm]. discriminate. }
  split; [|split].
  - intros tok. rewrite Hthrow, note_match_iff.
    destruct (note_match tok) as [m|]; split.
    + discriminate.
    + intros H. exfalso. apply H. now exists m.
    + intros _ [m Hm]. discriminate.
    + reflexivity.
  - intros tok. rewrite Hnormal. symmetry. apply note_match_iff.
  - repeat constructor.
Qed.

(** Two tokens with the same semitone index have the same frequency:
    while the octave numbers are small the index is computed exactly and
    the frequency depends on it alone; equal indices put the octave
    numbers within one of each other, and large octave numbers both give
    [Infinity]. *)
Lemma same_semitone_same_frequency l a ds l' a' ds' :
  letter l -> accidental a -> ds <> [] -> Forall digit ds ->
  letter l' -> accidental a' -> ds' <> [] -> Forall digit ds' ->
  semitone l a ds = semitone l' a' ds' ->
  exists f, noteToFrequency (l :: a ++ ds) = Normal f
            /\ noteToFrequency (l' :: a' ++ ds') = Normal f.
Proof.
  intros Hl Ha Hne Hds Hl' Ha' Hne' Hds' Heq.
  pose proof (base_offset_range l). pose proof (accidental_shift_range a).
  pose proof (base_offset_range l'). pose proof (accidental_shift_range a').
  assert (Hnear : (digits_value ds' - 1 <= digits_value ds
                   <= digits_value ds' + 1)%Z)
    by (unfold semitone in Heq; lia).
  destruct (Z_le_gt_dec (digits_value ds) 2000) as [Hsmall | Hbig].
  - exists (frequency_of (Fin (IZR (semitone l a ds)))). split.
    + rewrite (noteToFrequency_token l a ds Hl Ha Hne Hds).
      rewrite (semitone_number_exact l a ds Hds) by lia. reflexivity.
    + rewrite (noteToFrequency_token l' a' ds' Hl' Ha' Hne' Hds').
      rewrite (semitone_number_exact l' a' ds' Hds') by lia.
      now rewrite Heq.
  - exists (Infinity false). split; apply noteToFrequency_large;
      try assumption; unfold semitone in *; lia.
Qed.

(** C8.  [noteToFrequency("C#4")] equals [noteToFrequency("Db4")], and
    two tokens of the grammar with the same semitone index have the same
    frequency. *)
Theorem enharmonic_equivalence :
  noteToFrequency (js "C#4") = noteToFrequency (js "Db4")
  /\ forall l a ds l' a' ds',
      letter l -> accidental a -> ds <> [] -> Forall digit ds ->
      letter l' -> accidental a' -> ds' <> [] -> Forall digit ds' ->
      semitone l a ds = semitone l' a' ds' ->
      exists f, noteToFrequency (l :: a ++ ds) = Normal f
                /\ noteToFrequency (l' :: a' ++ ds') = Normal f.
Proof.
  split; [|exact same_semitone_same_frequency].
  destruct (same_semitone_same_frequency
              67 (js "#") (js "4") 68 (js "b") (js "4"))
    as (f & H1 & H2).
  - unfold letter. cbn. tauto.
  - right. now left.
  - discriminate.
  - apply digits_iff. reflexivity.
  - unfold letter. cbn. tauto.
  - right. now right.
  - discriminate.
  - apply digits_iff. reflexivity.
  - reflexivity.
  - exact (eq_trans H1 (eq_sym H2)).
Qed.

Lemma enharmonic_equivalence_witness :
  exists f, noteToFrequency (js "E#3") = Normal f
            /\ noteToFrequency (js "F3") = Normal f.
Proof.
  apply (proj2 enharmonic_equivalence
           69 (js "#") (js "3") 70 (js "") (js "3")).
  - unfold letter. cbn. tauto.
  - right. now left.
  - discriminate.
  - apply digits_iff. reflexivity.
  - unfold letter. cbn. tauto.
  - now left.
  - discriminate.
  - apply digits_iff. reflexivity.
  - reflexivity.
Defined.

(** ** Running the loop *)

Section Loop.

Variable b : backend.

Lemma invoke_accepted c w :
  rejects b (calls w) c = None ->
  invoke b c w = (Normal tt, mkWorld (calls w ++ [c]) (alerts w) (fresh w)).
Proof.
  intros H. unfold invoke. now rewrite H.
Qed.

Lemma invoke_rejected c w e :
  rejects b (calls w) c = Some e -> invoke b c w = (Throw e, w).
Proof.
  intros H. unfold invoke. now rewrite H.
Qed.

Lemma create_accepted mk w :
  rejects b (calls w) (mk (fresh w)) = None ->
  create b mk w
  = (Normal (fresh w),
     mkWorld (calls w ++ [mk (fresh w)]) (alerts w) (S (fresh w))).
Proof.
  intros H. unfold create. now rewrite H.
Qed.

(** A pair whose note resolves and whose calls the backend takes: the
    nine calls of one tone are made and the cursor moves on by the
    duration. *)
Lemma play_pair_accepted note durtok t w f :
  noteToFrequency note = Normal f ->
  (forall h c,
      In c (tone_calls (fresh w) f t (parseFloat durtok)) ->
      rejects b h c = None) ->
  play_pair b note durtok t w
  = (Normal (add t (parseFloat durtok)),
     mkWorld (calls w ++ tone_calls (fresh w) f t (parseFloat durtok))
       (alerts w) (S (S (fresh w)))).
Proof.
  intros Hf Hacc. unfold play_pair, bind, lift. rewrite Hf.
  rewrite create_accepted by (apply Hacc; cbn; tauto).
  rewrite create_accepted by (apply Hacc; cbn; tauto).
  repeat (rewrite invoke_accepted by (apply Hacc; cbn; tauto)).
  cbn. unfold ret. f_equal. f_equal.
  repeat rewrite <- app_assoc. reflexivity.
Qed.

(** A pair whose note does not resolve: the error leaves the loop body
    before any call is made. *)
Lemma play_pair_invalid note durtok t w e :
  noteToFrequency note = Throw e ->
  play_pair b note durtok t w = (Throw e, w).
Proof.
  intros Hf. unfold play_pair, bind, lift. now rewrite Hf.
Qed.

Lemma cursor_after_cons t f d tones :
  cursor_after t ((f, d) :: tones) = cursor_after (add t d) tones.
Proof. reflexivity. Qed.

(** The loop over a run of pairs that resolve and are accepted, followed
    by any other parts. *)
Lemma play_from_accepted pairs tones :
  Forall2 tone_of pairs tones ->
  forall rest t w,
    (forall h c,
        In c (trace_from (fresh w) t tones) -> rejects b h c = None) ->
    play_from b (tokens_of pairs ++ rest) t w
    = play_from b rest (cursor_after t tones)
        (mkWorld (calls w ++ trace_from (fresh w) t tones) (alerts w)
           (fresh w + 2 * List.length tones)%nat).
Proof.
  induction 1 as [|[n d] [f dur] pairs tones [Hf Hd] _ IH];
    intros rest t w Hacc.
  - cbn. rewrite app_nil_r, Nat.add_0_r. now destruct w.
  - cbn in Hf, Hd. subst dur.
    change (tokens_of ((n, d) :: pairs) ++ rest)
      with (n :: d :: (tokens_of pairs ++ rest)).
    cbn [play_from]. unfold bind at 1.
    rewrite (play_pair_accepted n d t w f Hf).
    + rewrite IH.
      * cbn [calls alerts fresh trace_from]. rewrite cursor_after_cons.
        f_equal. f_equal.
        -- now rewrite <- app_assoc.
        -- cbn [List.length]. lia.
      * intros h c Hc. apply Hacc. cbn [trace_from fresh] in *.
        apply in_or_app. now right.
    + intros h c Hc. apply Hacc. cbn [trace_from].
      apply in_or_app. now left.
Qed.

End Loop.

(** ** Tokens and pairs *)

Lemma pairs_of_tokens parts :
  forall pairs, pairs_of parts = Some pairs -> parts = tokens_of pairs.
Proof.
  assert (H : forall n parts, (List.length parts <= n)%nat ->
              forall pairs, pairs_of parts = Some pairs ->
                            parts = tokens_of pairs).
  { induction n as [|n IH]; intros [|x [|y rest]] Hlen pairs Hp;
      cbn in Hlen, Hp; try lia; try discriminate.
    - now inversion Hp.
    - now inversion Hp.
    - destruct (pairs_of rest) as [ps|] eqn:E; [|discriminate].
      cbn in Hp. inversion Hp; subst. cbn. do 2 f_equal.
      apply (IH rest); [lia | exact E]. }
  intros pairs. now apply (H (List.length parts)).
Qed.

Lemma pairs_of_tokens_of pairs : pairs_of (tokens_of pairs) = Some pairs.
Proof.
  unfold tokens_of.
  induction pairs as [|[n d] pairs IH]; cbn; [reflexivity|].
  now rewrite IH.
Qed.

Lemma length_tokens_of pairs :
  List.length (tokens_of pairs) = (2 * List.length pairs)%nat.
Proof.
  unfold tokens_of.
  induction pairs as [|[n d] pairs IH]; cbn; [reflexivity|].
  rewrite IH. lia.
Qed.

Lemma even_count pairs :
  negb (Nat.eqb (Nat.modulo (List.length (tokens_of pairs)) 2) 0) = false.
Proof.
  rewrite length_tokens_of, Nat.mul_comm, Nat.Div0.mod_mul. reflexivity.
Qed.

Lemma odd_count n :
  Nat.odd n = true -> negb (Nat.eqb (Nat.modulo n 2) 0) = true.
Proof.
  intros H. apply Nat.odd_spec in H as [m ->].
  rewrite Nat.add_comm, (Nat.mul_comm 2 m), Nat.Div0.mod_add. reflexivity.
Qed.

(** ** Runs of [playSong] *)

Section Runs.

Variable b : backend.

(** An odd number of parts: one alert, no call. *)
Lemma playSong_odd data w :
  Nat.odd (List.length (split_ws (trim data))) = true ->
  playSong b data w
  = (Normal tt, mkWorld (calls w) (alerts w ++ [pairs_message]) (fresh w)).
Proof.
  intros H. unfold playSong, try_catch, playSong_try.
  now rewrite (odd_count _ H).
Qed.

(** Pairs that all resolve and whose calls are all accepted: the audio
    context is made and the tones are scheduled one after the other. *)
Lemma playSong_accepted data pairs tones w :
  pairs_of (split_ws (trim data)) = Some pairs ->
  Forall2 tone_of pairs tones ->
  (forall h c,
      In c (NewAudioContext :: trace_from (fresh w) (currentTime b) tones) ->
      rejects b h c = None) ->
  playSong b data w
  = (Normal tt,
     mkWorld
       (calls w ++ NewAudioContext
        :: trace_from (fresh w) (currentTime b) tones)
       (alerts w) (fresh w + 2 * List.length tones)%nat).
Proof.
  intros Hp Ht Hacc. apply pairs_of_tokens in Hp.
  unfold playSong, try_catch, playSong_try. rewrite Hp, even_count.
  unfold bind at 1. rewrite invoke_accepted by (apply Hacc; now left).
  rewrite <- (app_nil_r (tokens_of pairs)).
  rewrite (play_from_accepted b pairs tones Ht).
  - cbn. unfold ret. f_equal. f_equal. now rewrite <- app_assoc.
  - intros h c Hc. apply Hacc. now right.
Qed.

(** Pairs that resolve and are accepted, then a pair whose note does not
    resolve: the tones before it are scheduled, then the error is shown
    and the loop is over. *)
Lemma playSong_invalid_note data pairs tones bad d later e w :
  pairs_of (split_ws (trim data)) = Some (pairs ++ (bad, d) :: later) ->
  Forall2 tone_of pairs tones ->
  noteToFrequency bad = Throw e ->
  (forall h c,
      In c (NewAudioContext :: trace_from (fresh w) (currentTime b) tones) ->
      rejects b h c = None) ->
  playSong b data w
  = (Normal tt,
     mkWorld
       (calls w ++ NewAudioContext
        :: trace_from (fresh w) (currentTime b) tones)
       (alerts w ++ [js "Error playing song: " ++ toString e])
       (fresh w + 2 * List.length tones)%nat).
Proof.
  intros Hp Ht He Hacc. apply pairs_of_tokens in Hp.
  unfold playSong, try_catch, playSong_try. rewrite Hp, even_count.
  unfold bind at 1. rewrite invoke_accepted by (apply Hacc; now left).
  unfold tokens_of. rewrite flat_map_app. fold (tokens_of pairs).
  rewrite (play_from_accepted b pairs tones Ht).
  - cbn [flat_map fst snd app play_from]. unfold bind at 1.
    rewrite (play_pair_invalid b bad d _ _ e He).
    cbn. f_equal. f_equal. now rewrite <- app_assoc.
  - intros h c Hc. apply Hacc. now right.
Qed.

End Runs.

(** ** Malformed pairing, and what the caller sees *)

(** C6.  When the white-space tokenization of the song yields an odd
    number of tokens, [playSong] returns normally after showing the
    "NOTE DURATION" pairs message: no call reaches the audio backend and
    no tone is scheduled. *)
Theorem odd_token_count b data :
  Nat.Odd (List.length (split_ws (trim data))) ->
  run b data = (Normal tt, mkWorld [] [pairs_message] 0)
  /\ tones_scheduled (snd (run b data)) = 0%nat.
Proof.
  intros H. apply Nat.odd_spec in H.
  unfold run. rewrite (playSong_odd b data initial H). now split.
Qed.

Lemma odd_token_count_witness :
  run (browser (Fin 0)) (js "C4 0.5 D4")
  = (Normal tt, mkWorld [] [pairs_message] 0)
  /\ tones_scheduled (snd (run (browser (Fin 0)) (js "C4 0.5 D4"))) = 0%nat.
Proof.
  apply (odd_token_count (browser (Fin 0)) (js "C4 0.5 D4")).
  exists 1%nat. reflexivity.
Defined.

(** C5.  The empty song is split into one empty part, so its token count
    is odd: [playSong] shows the pairs message instead of playing nothing
    in silence.  The same holds for a song of white space only. *)
Theorem empty_song_is_rejected b :
  split_ws (trim (js "")) = [js ""]
  /\ run b (js "") = (Normal tt, mkWorld [] [pairs_message] 0)
  /\ run b (js "  ") = (Normal tt, mkWorld [] [pairs_message] 0).
Proof.
  split; [reflexivity|].
  split; unfold run; apply playSong_odd; reflexivity.
Qed.

(** C9.  [playSong] returns normally on every input, in every state and
    on every backend: when the [try] block ends normally its effects
    stand, and when it throws, the error is caught and shown in one
    alert.  The error of [noteToFrequency] on "H4" is caught that way. *)
Theorem playSong_total :
  (forall b data w,
      exists w',
        playSong b data w = (Normal tt, w')
        /\ (forall w1, playSong_try b data w = (Normal tt, w1) -> w' = w1)
        /\ (forall e w1,
               playSong_try b data w = (Throw e, w1) ->
               w' = mkWorld (calls w1)
                      (alerts w1 ++ [js "Error playing song: " ++ toString e])
                      (fresh w1)))
  /\ playSong_try (browser (Fin 0)) (js "H4 1") initial
     = (Throw (Error (js "Invalid note: H4")), mkWorld [NewAudioContext] [] 0)
  /\ playSong (browser (Fin 0)) (js "H4 1") initial
     = (Normal tt,
        mkWorld [NewAudioContext]
          [js "Error playing song: Error: Invalid note: H4"] 0).
Proof.
  split; [|split].
  - intros b data w. unfold playSong, try_catch.
    destruct (playSong_try b data w) as [[[] | e] w1] eqn:E.
    + exists w1. repeat split.
      * intros w2 H. now inversion H.
      * intros e w2 H. discriminate.
    + eexists. repeat split.
      * intros w2 H. discriminate.
      * intros e' w2 H. now inversion H.
  - reflexivity.
  - reflexivity.
Qed.

(** ** Backends *)

Lemma check_time_ok t : finite_nonneg t -> check_time t = None.
Proof.
  intros (x & -> & Hx). unfold check_time. now rewrite Rneg_false.
Qed.

Lemma float_overflow_large : (1000 < float_overflow)%R.
Proof.
  unfold float_overflow. rewrite pow2_IZR, <- mult_IZR by lia.
  apply IZR_lt, Z.ltb_lt. vm_compute. reflexivity.
Qed.

(** The gain 0.1 has a float. *)
Lemma gain_float : float_value (of_real (1 / 10)).
Proof.
  pose proof overflow_million as Ho. pose proof float_overflow_large as Hf.
  destruct (of_real_between 0 1 (1 / 10)) as [-> Hb].
  - apply (representable_IZR 0). reflexivity.
  - apply (representable_IZR 1). reflexivity.
  - lra.
  - lra.
  - lra.
  - eexists. split; [reflexivity|]. rewrite Rabs_pos_eq; lra.
Qed.

(** A browser takes every call whose arguments the Web Audio API
    allows. *)
Lemma browser_accepts now h c :
  well_formed c -> rejects (browser now) h c = None.
Proof.
  assert (Hfloat : forall v, float_value v -> check_float v = None).
  { intros v (r & -> & Hr). cbn.
    destruct (Rle_dec float_overflow (Rabs r)); [lra | reflexivity]. }
  destruct c; cbn; intros Hc; try reflexivity.
  - now apply Hfloat.
  - destruct Hc as [Hv Ht]. rewrite (Hfloat _ Hv). now apply check_time_ok.
  - now apply check_time_ok.
  - now apply check_time_ok.
Qed.

Lemma tone_calls_well_formed osc f t d :
  float_value f -> finite_nonneg t -> finite_nonneg (add t d) ->
  forall c, In c (tone_calls osc f t d) -> well_formed c.
Proof.
  intros Hf Ht Hd c Hc. cbn in Hc.
  repeat (destruct Hc as [<- | Hc]; [cbn; auto|]); try contradiction.
  split; [exact gain_float | exact Ht].
Qed.

(** The calls of a tone up to [osc.start(t)] do not depend on the
    duration. *)
Lemma tone_begun_well_formed osc f t d :
  float_value f -> finite_nonneg t ->
  forall c, In c (removelast (tone_calls osc f t d)) -> well_formed c.
Proof.
  intros Hf Ht c Hc. cbn in Hc.
  repeat (destruct Hc as [<- | Hc]; [cbn; auto|]); try contradiction.
  split; [exact gain_float | exact Ht].
Qed.

Lemma trace_well_formed tones :
  forall osc t,
    playable_from t tones ->
    forall c, In c (trace_from osc t tones) -> well_formed c.
Proof.
  induction tones as [|[f d] tones IH]; intros osc t Hp c Hc;
    [contradiction|].
  destruct Hp as (Hf & Ht & Htd & Hrest).
  cbn [trace_from] in Hc. apply in_app_or in Hc as [Hc | Hc].
  - exact (tone_calls_well_formed osc f t d Hf Ht Htd c Hc).
  - exact (IH _ _ Hrest c Hc).
Qed.

(** A browser takes the calls of tones whose frequencies have a float as
    long as the time cursor stays finite and not negative. *)
Lemma browser_takes now tones h c :
  playable_from now tones ->
  In c (NewAudioContext :: trace_from 0 now tones) ->
  rejects (browser now) h c = None.
Proof.
  intros Hp [<- | Hc]; [reflexivity|].
  apply browser_accepts. exact (trace_well_formed tones _ _ Hp c Hc).
Qed.

(** ** The loop cursor and the schedule of the specification *)

Lemma trace_realize tones :
  forall osc t,
    trace_from osc t tones = realize osc (schedule_from t tones).
Proof.
  induction tones as [|[f d] tones IH]; intros osc t.
  - reflexivity.
  - cbn. do 9 f_equal. apply IH.
Qed.

Lemma schedule_from_length t tones :
  List.length (schedule_from t tones) = List.length tones.
Proof.
  revert t. induction tones as [|[f d] tones IH]; intros t; cbn.
  - reflexivity.
  - now rewrite IH.
Qed.

Lemma schedule_from_head t tones e :
  nth_error (schedule_from t tones) 0 = Some e -> startTime e = t.
Proof.
  destruct tones as [|[f d] tones]; cbn; [discriminate|].
  intros H. now inversion H.
Qed.

Lemma schedule_from_next tones :
  forall t k e e',
    nth_error (schedule_from t tones) k = Some e ->
    nth_error (schedule_from t tones) (S k) = Some e' ->
    startTime e' = add (startTime e) (duration e).
Proof.
  induction tones as [|[f d] tones IH]; intros t k e e' He He'.
  - destruct k; discriminate.
  - destruct k as [|k].
    + cbn in He. inversion He; subst e. cbn in He' |- *.
      now apply schedule_from_head in He'.
    + cbn in He, He'. eapply IH; eassumption.
Qed.

Lemma schedule_from_pairs pairs tones :
  Forall2 tone_of pairs tones ->
  forall t,
    Forall2 (fun p e =>
               noteToFrequency (fst p) = Normal (frequency e)
               /\ duration e = parseFloat (snd p))
      pairs (schedule_from t tones).
Proof.
  induction 1 as [|p [f d] pairs tones [Hf Hd] _ IH]; intros t; cbn.
  - constructor.
  - constructor; [|apply IH]. cbn in *. now split.
Qed.

(** Every note of a valid song resolves. *)
Lemma valid_pairs_tones pairs :
  Forall valid_pair pairs -> exists tones, Forall2 tone_of pairs tones.
Proof.
  induction 1 as [|[n d] pairs [Hn Hd] _ (tones & IH)].
  - exists []. constructor.
  - cbn in Hn. destruct Hn as (l & a & ds & -> & Hl & Ha & Hne & Hds).
    exists ((frequency_of (semitone_number l a ds), parseFloat d) :: tones).
    constructor; [|exact IH].
    split; cbn [fst snd]; [now apply noteToFrequency_token | reflexivity].
Qed.

(** ** Songs that stop part of the way *)

Lemma starts_in_trace tones :
  forall osc t,
    List.length (filter is_start (trace_from osc t tones))
    = List.length tones.
Proof.
  induction tones as [|[f d] tones IH]; intros osc t; [reflexivity|].
  cbn [trace_from]. rewrite filter_app, length_app, IH. reflexivity.
Qed.

Lemma Forall2_length_eq {A B} (R : A -> B -> Prop) xs ys :
  Forall2 R xs ys -> List.length xs = List.length ys.
Proof.
  induction 1; cbn; congruence.
Qed.

Lemma invalid_note_error note :
  ~ NoteToken note ->
  noteToFrequency note = Throw (Error (js "Invalid note: " ++ note)).
Proof.
  intros H. unfold noteToFrequency.
  destruct (note_match note) as [m|] eqn:E; [|reflexivity].
  exfalso. apply H, note_match_iff. now exists m.
Qed.

Section Rejected.

Variable b : backend.

(** A pair whose note resolves, whose tone is set up and started, and
    whose stop time the backend rejects: the backend's error leaves the
    loop body after the tone has been started. *)
Lemma play_pair_stop_rejected note durtok t w f e :
  noteToFrequency note = Normal f ->
  (forall h c,
      In c (removelast (tone_calls (fresh w) f t (parseFloat durtok))) ->
      rejects b h c = None) ->
  (forall h, rejects b h (Stop (fresh w) (add t (parseFloat durtok)))
             = Some e) ->
  play_pair b note durtok t w
  = (Throw e,
     mkWorld
       (calls w ++ removelast (tone_calls (fresh w) f t (parseFloat durtok)))
       (alerts w) (S (S (fresh w)))).
Proof.
  intros Hf Hacc Hrej. unfold play_pair, bind, lift. rewrite Hf.
  rewrite create_accepted by (apply Hacc; cbn; tauto).
  rewrite create_accepted by (apply Hacc; cbn; tauto).
  repeat (rewrite invoke_accepted by (apply Hacc; cbn; tauto)).
  rewrite (invoke_rejected b _ _ e) by apply Hrej.
  cbn. f_equal. f_equal. repeat rewrite <- app_assoc. reflexivity.
Qed.

(** A pair whose note resolves to a frequency the backend rejects: the
    two nodes have been created, and no tone is started. *)
Lemma play_pair_frequency_rejected note durtok t w f e :
  noteToFrequency note = Normal f ->
  (forall h c,
      In c [CreateOscillator (fresh w); CreateGain (S (fresh w))] ->
      rejects b h c = None) ->
  (forall h, rejects b h (SetFrequency (fresh w) f) = Some e) ->
  play_pair b note durtok t w
  = (Throw e,
     mkWorld
       (calls w ++ [CreateOscillator (fresh w); CreateGain (S (fresh w))])
       (alerts w) (S (S (fresh w)))).
Proof.
  intros Hf Hacc Hrej. unfold play_pair, bind, lift. rewrite Hf.
  rewrite create_accepted by (apply Hacc; cbn; tauto).
  rewrite create_accepted by (apply Hacc; cbn; tauto).
  rewrite (invoke_rejected b _ _ e) by apply Hrej.
  cbn. f_equal. f_equal. now rewrite <- app_assoc.
Qed.

(** Pairs that play, then a pair with a valid note whose tone is begun
    and whose stop time the backend rejects. *)
Lemma playSong_stop_rejected data pairs tones n d later f e :
  pairs_of (split_ws (trim data)) = Some (pairs ++ (n, d) :: later) ->
  Forall2 tone_of pairs tones ->
  noteToFrequency n = Normal f ->
  (forall h c,
      In c (NewAudioContext
            :: trace_from 0 (currentTime b) tones
               ++ removelast
                    (tone_calls (2 * List.length tones) f
                       (cursor_after (currentTime b) tones)
                       (parseFloat d))) ->
      rejects b h c = None) ->
  (forall h,
      rejects b h
        (Stop (2 * List.length tones)
           (add (cursor_after (currentTime b) tones) (parseFloat d)))
      = Some e) ->
  run b data
  = (Normal tt,
     mkWorld
       (NewAudioContext
        :: trace_from 0 (currentTime b) tones
           ++ removelast
                (tone_calls (2 * List.length tones) f
                   (cursor_after (currentTime b) tones) (parseFloat d)))
       [js "Error playing song: " ++ toString e]
       (S (S (2 * List.length tones)))).
Proof.
  intros Hp Ht Hf Hacc Hrej. apply pairs_of_tokens in Hp.
  unfold run, playSong, try_catch, playSong_try. rewrite Hp, even_count.
  unfold bind at 1. rewrite invoke_accepted by (apply Hacc; now left).
  unfold tokens_of. rewrite flat_map_app. fold (tokens_of pairs).
  rewrite (play_from_accepted b pairs tones Ht).
  - cbn [flat_map fst snd app play_from]. unfold bind at 1.
    cbn [calls alerts fresh initial Nat.add].
    rewrite (play_pair_stop_rejected n d _ _ f e Hf).
    + reflexivity.
    + cbn [fresh]. intros h c Hc. apply Hacc. right.
      apply in_or_app. now right.
    + exact Hrej.
  - cbn [fresh initial]. intros h c Hc. apply Hacc. right.
    apply in_or_app. now left.
Qed.

(** Pairs that play, then a pair whose frequency the backend rejects. *)
Lemma playSong_frequency_rejected data pairs tones n d later f e :
  pairs_of (split_ws (trim data)) = Some (pairs ++ (n, d) :: later) ->
  Forall2 tone_of pairs tones ->
  noteToFrequency n = Normal f ->
  (forall h c,
      In c (NewAudioContext
            :: trace_from 0 (currentTime b) tones
               ++ [CreateOscillator (2 * List.length tones);
                   CreateGain (S (2 * List.length tones))]) ->
      rejects b h c = None) ->
  (forall h, rejects b h (SetFrequency (2 * List.length tones) f) = Some e) ->
  run b data
  = (Normal tt,
     mkWorld
       (NewAudioContext
        :: trace_from 0 (currentTime b) tones
           ++ [CreateOscillator (2 * List.length tones);
               CreateGain (S (2 * List.length tones))])
       [js "Error playing song: " ++ toString e]
       (S (S (2 * List.length tones)))).
Proof.
  intros Hp Ht Hf Hacc Hrej. apply pairs_of_tokens in Hp.
  unfold run, playSong, try_catch, playSong_try. rewrite Hp, even_count.
  unfold bind at 1. rewrite invoke_accepted by (apply Hacc; now left).
  unfold tokens_of. rewrite flat_map_app. fold (tokens_of pairs).
  rewrite (play_from_accepted b pairs tones Ht).
  - cbn [flat_map fst snd app play_from]. unfold bind at 1.
    cbn [calls alerts fresh initial Nat.add].
    rewrite (play_pair_frequency_rejected n d _ _ f e Hf).
    + reflexivity.
    + cbn [fresh]. intros h c Hc. apply Hacc. right.
      apply in_or_app. now right.
    + exact Hrej.
  - cbn [fresh initial]. intros h c Hc. apply Hacc. right.
    apply in_or_app. now left.
Qed.

End Rejected.

(** ** Concrete tokens and numbers *)

Ltac digits := apply digits_iff; reflexivity.

Ltac no_digits :=
  repeat constructor;
  let H := fresh in intros H; apply digit_iff in H; discriminate H.

Lemma of_real_half : of_real (1 / 2) = Fin (1 / 2).
Proof.
  apply of_real_exact; [exact representable_half|].
  rewrite Rabs_pos_eq by lra. pose proof overflow_million. lra.
Qed.

Lemma parseFloat_half : parseFloat (js "0.5") = Fin (1 / 2).
Proof.
  unfold parseFloat.
  replace (scan_decimal (trim_start (js "0.5")))
    with (LDecimal false (js "05") (-1)) by reflexivity.
  unfold literal_value.
  replace (digits_value (js "05")) with 5%Z by reflexivity.
  replace (5 * powerRZ 10 (-1))%R with (1 / 2)%R; [exact of_real_half|].
  cbn [powerRZ]. change (Pos.to_nat 1) with 1%nat. rewrite pow_1. lra.
Qed.

Lemma parseFloat_one : parseFloat (js "1") = Fin 1.
Proof.
  unfold parseFloat.
  replace (scan_decimal (trim_start (js "1")))
    with (LDecimal false (js "1") 0) by reflexivity.
  unfold literal_value.
  replace (digits_value (js "1")) with 1%Z by reflexivity.
  cbn [powerRZ]. rewrite Rmult_1_r. apply (of_real_IZR 1). reflexivity.
Qed.

Lemma parseFloat_minus_one : parseFloat (js "-1") = Fin (-1).
Proof.
  unfold parseFloat.
  replace (scan_decimal (trim_start (js "-1")))
    with (LDecimal true (js "1") 0) by reflexivity.
  unfold literal_value.
  replace (digits_value (js "1")) with 1%Z by reflexivity.
  cbn [powerRZ]. rewrite Rmult_1_r.
  rewrite (of_real_IZR 1) by reflexivity. reflexivity.
Qed.

Lemma add_0_half : add (Fin 0) (Fin (1 / 2)) = Fin (1 / 2).
Proof.
  cbn [add]. rewrite Rplus_0_l. exact of_real_half.
Qed.

Lemma add_0_minus_1 : add (Fin 0) (Fin (-1)) = Fin (-1).
Proof.
  cbn [add]. rewrite Rplus_0_l. apply (of_real_IZR (-1)). reflexivity.
Qed.

Lemma add_half_half : add (Fin (1 / 2)) (Fin (1 / 2)) = Fin 1.
Proof.
  cbn [add]. replace (1 / 2 + 1 / 2)%R with (IZR 1) by lra.
  apply (of_real_IZR 1). reflexivity.
Qed.

Lemma finite_nonneg_Fin r : (0 <= r)%R -> finite_nonneg (Fin r).
Proof.
  intros H. now exists r.
Qed.

Lemma valid_duration_half : valid_duration (js "0.5").
Proof.
  unfold valid_duration. rewrite parseFloat_half.
  apply finite_nonneg_Fin. lra.
Qed.

Lemma valid_duration_one : valid_duration (js "1").
Proof.
  unfold valid_duration. rewrite parseFloat_one.
  apply finite_nonneg_Fin. lra.
Qed.

Lemma note_C4 :
  noteToFrequency (js "C4")
  = Normal (Fin (frequency_at (semitone 67 (js "") (js "4")))).
Proof.
  apply (noteToFrequency_small 67 (js "") (js "4")).
  - unfold letter. cbn. tauto.
  - now left.
  - discriminate.
  - digits.
  - cbn. lia.
Qed.

Lemma note_D4 :
  noteToFrequency (js "D4")
  = Normal (Fin (frequency_at (semitone 68 (js "") (js "4")))).
Proof.
  apply (noteToFrequency_small 68 (js "") (js "4")).
  - unfold letter. cbn. tauto.
  - now left.
  - discriminate.
  - digits.
  - cbn. lia.
Qed.

Lemma note_A2000 : noteToFrequency (js "A2000") = Normal (Infinity false).
Proof.
  apply (noteToFrequency_large 65 (js "") (js "2000")).
  - unfold letter. cbn. tauto.
  - now left.
  - discriminate.
  - digits.
  - cbn. lia.
Qed.

Lemma token_C4 : NoteToken (js "C4").
Proof.
  exists 67, (js ""), (js "4"). repeat split.
  - unfold letter. cbn. tauto.
  - now left.
  - discriminate.
  - digits.
Qed.

Lemma token_D4 : NoteToken (js "D4").
Proof.
  exists 68, (js ""), (js "4"). repeat split.
  - unfold letter. cbn. tauto.
  - now left.
  - discriminate.
  - digits.
Qed.

Lemma token_A2000 : NoteToken (js "A2000").
Proof.
  exists 65, (js ""), (js "2000"). repeat split.
  - unfold letter. cbn. tauto.
  - now left.
  - discriminate.
  - digits.
Qed.

Lemma literal_half : DecimalLiteral (js "0.5").
Proof.
  exists (js "0"), (js ".5"), (js ""). repeat split.
  - digits.
  - right. exists (js "5"). split; [reflexivity | digits].
  - now left.
  - left. discriminate.
Qed.

(** A note up to A4 has a frequency a browser takes. *)
Lemma float_low_note s :
  (11 <= s <= 69)%Z -> float_value (Fin (frequency_at s)).
Proof.
  intros Hs. pose proof (frequency_at_low s Hs) as H.
  pose proof float_overflow_large.
  eexists. split; [reflexivity|]. rewrite Rabs_pos_eq; lra.
Qed.

(** A browser whose clock shows 0 takes the tone of "C4 0.5". *)
Lemma playable_C4 :
  playable_from (Fin 0)
    [(Fin (frequency_at (semitone 67 (js "") (js "4"))),
      parseFloat (js "0.5"))].
Proof.
  rewrite parseFloat_half. cbn [playable_from]. rewrite add_0_half.
  split; [apply float_low_note; cbn; lia|].
  repeat split; apply finite_nonneg_Fin; lra.
Qed.

(** And the tones of "C4 0.5 D4 0.5", which end at 0.5 and at 1. *)
Lemma playable_C4_D4 :
  playable_from (Fin 0)
    [(Fin (frequency_at (semitone 67 (js "") (js "4"))),
      parseFloat (js "0.5"));
     (Fin (frequency_at (semitone 68 (js "") (js "4"))),
      parseFloat (js "0.5"))].
Proof.
  rewrite parseFloat_half. cbn [playable_from].
  rewrite add_0_half, add_half_half.
  split; [apply float_low_note; cbn; lia|].
  split; [apply finite_nonneg_Fin; lra|].
  split; [apply finite_nonneg_Fin; lra|].
  split; [apply float_low_note; cbn; lia|].
  repeat split; apply finite_nonneg_Fin; lra.
Qed.

(** ** The schedule of a valid song *)

(** C1 does not hold as stated: "A2000 1" is a valid song (one pair, a
    note of the grammar, the duration 1), but the frequency of A2000
    overflows to [Infinity], which a browser does not take as a
    frequency: no tone is scheduled and the backend's error is shown. *)
Lemma overflowing_note_counterexample :
  valid_song (split_ws (trim (js "A2000 1")))
  /\ run (browser (Fin 0)) (js "A2000 1")
     = (Normal tt,
        mkWorld [NewAudioContext; CreateOscillator 0; CreateGain 1]
          [js "Error playing song: TypeError: value must be finite"] 2)
  /\ tones_scheduled (snd (run (browser (Fin 0)) (js "A2000 1"))) = 0%nat.
Proof.
  assert (Hrun : run (browser (Fin 0)) (js "A2000 1")
                 = (Normal tt,
                    mkWorld [NewAudioContext; CreateOscillator 0; CreateGain 1]
                      [js "Error playing song: TypeError: value must be finite"]
                      2)).
  { rewrite (playSong_frequency_rejected (browser (Fin 0)) (js "A2000 1")
               [] [] (js "A2000") (js "1") [] (Infinity false)
               (TypeError (js "value must be finite"))).
    - reflexivity.
    - reflexivity.
    - constructor.
    - exact note_A2000.
    - intros h c Hc. cbn in Hc.
      repeat (destruct Hc as [<- | Hc]; [reflexivity|]). contradiction.
    - intros h. reflexivity. }
  split; [|split].
  - exists [(js "A2000", js "1")]. split; [reflexivity|].
    constructor; [|constructor].
    split; [exact token_A2000 | exact valid_duration_one].
  - exact Hrun.
  - now rewrite Hrun.
Qed.

(** C1, as the code has it.  The notes of a valid song all resolve.  When
    the backend accepts the calls made for them (a browser does while
    every frequency has a 32-bit float and every value of the time cursor
    is finite and not negative), [playSong] schedules exactly one tone per
    (note, duration) pair, in input order, and shows no alert: the events
    have the frequency of the note and the duration of the pair, the
    first one starts at the scheduling origin, the clock value read at
    entry, and each next one starts at the start time of the one before
    it plus that one's duration, a sum rounded once per pair. *)
Theorem playSong_schedule :
  (forall pairs,
      Forall valid_pair pairs -> exists tones, Forall2 tone_of pairs tones)
  /\ forall b data pairs tones,
      pairs_of (split_ws (trim data)) = Some pairs ->
      Forall valid_pair pairs ->
      Forall2 tone_of pairs tones ->
      (forall h c,
          In c (NewAudioContext :: trace_from 0 (currentTime b) tones) ->
          rejects b h c = None) ->
      exists events,
        Forall2 (fun p e =>
                   noteToFrequency (fst p) = Normal (frequency e)
                   /\ duration e = parseFloat (snd p))
          pairs events
        /\ (forall e, nth_error events 0 = Some e ->
                      startTime e = currentTime b)
        /\ (forall k e e',
               nth_error events k = Some e ->
               nth_error events (S k) = Some e' ->
               startTime e' = add (startTime e) (duration e))
        /\ run b data
           = (Normal tt,
              mkWorld (NewAudioContext :: realize 0 events) []
                (2 * List.length events))
        /\ tones_scheduled (snd (run b data)) = List.length pairs.
Proof.
  split; [exact valid_pairs_tones|].
  intros b data pairs tones Hp _ Ht Hacc.
  assert (Hrun : run b data
                 = (Normal tt,
                    mkWorld
                      (NewAudioContext
                       :: realize 0 (schedule_from (currentTime b) tones))
                      [] (2 * List.length
                                (schedule_from (currentTime b) tones)))).
  { unfold run.
    rewrite (playSong_accepted b data pairs tones initial Hp Ht Hacc).
    cbn [calls alerts fresh initial app].
    now rewrite schedule_from_length, trace_realize. }
  exists (schedule_from (currentTime b) tones).
  split; [now apply schedule_from_pairs|].
  split; [apply schedule_from_head|].
  split; [apply schedule_from_next|].
  split; [exact Hrun|].
  rewrite Hrun. unfold tones_scheduled. cbn [snd calls filter is_start].
  rewrite <- trace_realize, starts_in_trace.
  symmetry. exact (Forall2_length_eq _ _ _ Ht).
Qed.

Lemma playSong_schedule_witness :
  exists events,
    Forall2 (fun p e =>
               noteToFrequency (fst p) = Normal (frequency e)
               /\ duration e = parseFloat (snd p))
      [(js "C4", js "0.5"); (js "D4", js "0.5")] events
    /\ (forall e, nth_error events 0 = Some e -> startTime e = Fin 0)
    /\ (forall k e e',
           nth_error events k = Some e ->
           nth_error events (S k) = Some e' ->
           startTime e' = add (startTime e) (duration e))
    /\ run (browser (Fin 0)) (js "C4 0.5 D4 0.5")
       = (Normal tt,
          mkWorld (NewAudioContext :: realize 0 events) []
            (2 * List.length events))
    /\ tones_scheduled (snd (run (browser (Fin 0)) (js "C4 0.5 D4 0.5")))
       = 2%nat.
Proof.
  apply (proj2 playSong_schedule (browser (Fin 0)) (js "C4 0.5 D4 0.5")
           [(js "C4", js "0.5"); (js "D4", js "0.5")]
           [(Fin (frequency_at (semitone 67 (js "") (js "4"))),
             parseFloat (js "0.5"));
            (Fin (frequency_at (semitone 68 (js "") (js "4"))),
             parseFloat (js "0.5"))]).
  - reflexivity.
  - repeat constructor.
    + exact token_C4.
    + exact valid_duration_half.
    + exact token_D4.
    + exact valid_duration_half.
  - repeat constructor; [exact note_C4 | exact note_D4].
  - intros h c. apply browser_takes. exact playable_C4_D4.
Defined.

(** ** [parseFloat] on a decimal literal followed by other text *)

Lemma take_while_stop ds s :
  forallb is_digit ds = true -> stops s ->
  take_while is_digit (ds ++ s) = ds.
Proof.
  intros Hds Hs. rewrite take_while_all by exact Hds.
  destruct s as [|c r]; cbn in *; [|rewrite Hs]; apply app_nil_r.
Qed.

Lemma drop_while_stop ds s :
  forallb is_digit ds = true -> stops s ->
  drop_while is_digit (ds ++ s) = s.
Proof.
  intros Hds Hs. rewrite drop_while_all by exact Hds.
  destruct s as [|c r]; cbn in *; [|rewrite Hs]; reflexivity.
Qed.

Lemma not_digit_false c : ~ digit c -> is_digit c = false.
Proof.
  intros H. apply not_true_iff_false. intros Hc. now apply H, digit_iff.
Qed.

Lemma non_numeric_stops tail : non_numeric tail -> stops tail.
Proof.
  destruct 1 as [|c r Hc _]; cbn; [exact I | now apply not_digit_false].
Qed.

Lemma non_numeric_tl tail : non_numeric tail -> non_numeric (tl tail).
Proof.
  destruct 1; [constructor | assumption].
Qed.

Lemma take_while_non_numeric tail :
  non_numeric tail -> take_while is_digit tail = [].
Proof.
  intros H. apply (take_while_stop [] tail eq_refl), non_numeric_stops, H.
Qed.

Lemma drop_while_non_numeric tail :
  non_numeric tail -> drop_while is_digit tail = tail.
Proof.
  intros H. apply (drop_while_stop [] tail eq_refl), non_numeric_stops, H.
Qed.

Lemma read_sign_non_numeric tail :
  non_numeric tail -> non_numeric (snd (read_sign tail)).
Proof.
  intros H. unfold read_sign. destruct tail as [|c r]; [exact H|].
  pose proof (non_numeric_tl _ H) as Hr. cbn in Hr.
  destruct (N.eqb c 45); [exact Hr|].
  destruct (N.eqb c 43); [exact Hr | exact H].
Qed.

(** Text without digits holds no exponent part. *)
Lemma read_exponent_non_numeric tail :
  non_numeric tail -> read_exponent tail = 0%Z.
Proof.
  intros H. unfold read_exponent. destruct tail as [|c r]; [reflexivity|].
  destruct (N.eqb c 101 || N.eqb c 69)%bool; [|reflexivity].
  pose proof (read_sign_non_numeric r (non_numeric_tl _ H)) as Hs.
  destruct (read_sign r) as [s r']. cbn in Hs.
  now rewrite (take_while_non_numeric r' Hs).
Qed.

(** An exponent part is read whole, whatever text without digits comes
    after it. *)
Lemma read_exponent_part ex tail :
  exponent_part ex -> non_numeric tail ->
  read_exponent (ex ++ tail) = read_exponent ex.
Proof.
  intros [-> | (e & sg & ed & -> & He & Hsg & Hne & Hed)] Hs;
    [now apply read_exponent_non_numeric|].
  apply digits_iff in Hed.
  assert (Hx : forall s, stops s ->
             read_exponent ((e :: sg ++ ed) ++ s)
             = if eqb_str sg (js "-") then (- digits_value ed)%Z
               else digits_value ed).
  { intros s Hstop. cbn [app read_exponent].
    replace (N.eqb e 101 || N.eqb e 69)%bool with true
      by (cbn in He; destruct He as [<- | [<- | []]]; reflexivity).
    destruct ed as [|d ed']; [contradiction|].
    assert (Hd : is_digit d = true)
      by (cbn in Hed; apply andb_true_iff in Hed; tauto).
    rewrite <- app_assoc.
    destruct Hsg as [-> | [-> | ->]]; cbn [app js map list_ascii_of_string].
    - change ((d :: ed') ++ s) with (d :: (ed' ++ s)).
      rewrite read_sign_plain by (now left).
      change (d :: (ed' ++ s)) with ((d :: ed') ++ s).
      now rewrite take_while_stop.
    - cbn [read_sign N_of_ascii N.eqb]. cbn.
      rewrite Hd. cbn in Hed. rewrite Hd in Hed. cbn in Hed.
      now rewrite take_while_stop.
    - cbn. rewrite Hd. cbn in Hed. rewrite Hd in Hed. cbn in Hed.
      now rewrite take_while_stop. }
  rewrite (Hx tail (non_numeric_stops tail Hs)).
  rewrite <- (app_nil_r (e :: sg ++ ed)) at 1. now rewrite (Hx [] I).
Qed.

Lemma exponent_part_stops ex tail :
  exponent_part ex -> non_numeric tail -> stops (ex ++ tail).
Proof.
  intros [-> | (e & sg & ed & -> & He & _)] Hs.
  - now apply non_numeric_stops.
  - cbn in *. destruct He as [<- | [<- | []]]; reflexivity.
Qed.

Lemma exponent_part_no_point ex tail :
  exponent_part ex -> ex <> [] ->
  read_fraction (ex ++ tail) = ([], ex ++ tail).
Proof.
  intros [-> | (e & sg & ed & -> & He & _)] Hne; [contradiction|].
  cbn in *. destruct He as [<- | [<- | []]]; reflexivity.
Qed.

(** After the integer digits: the fraction is read whole, and what is
    left has the exponent of the literal. *)
Lemma read_fraction_part frac ex tail :
  fraction frac -> exponent_part ex -> non_numeric tail ->
  exists r,
    read_fraction (frac ++ ex ++ tail) = (tl frac, r)
    /\ read_exponent r = read_exponent ex.
Proof.
  intros [-> | (fp & -> & Hfp)] Hex Htail.
  - cbn [app tl].
    destruct ex as [|e ex'].
    + cbn [app]. destruct tail as [|c t'].
      * exists []. now split.
      * unfold read_fraction.
        pose proof (non_numeric_tl _ Htail) as Ht'. cbn [tl] in Ht'.
        destruct (N.eq_dec c 46) as [-> | Hc].
        -- exists t'. cbn. split.
           ++ now rewrite take_while_non_numeric, drop_while_non_numeric.
           ++ now apply read_exponent_non_numeric.
        -- exists (c :: t'). split.
           ++ destruct c as [|p]; [reflexivity|].
              do 6 (destruct p as [p|p|]; try reflexivity).
              contradiction.
           ++ now apply read_exponent_non_numeric.
    + exists ((e :: ex') ++ tail). split.
      * now apply exponent_part_no_point.
      * now apply read_exponent_part.
  - apply digits_iff in Hfp. exists (ex ++ tail). cbn [app tl read_fraction].
    split.
    + rewrite take_while_stop, drop_while_stop;
        auto using exponent_part_stops.
    + now apply read_exponent_part.
Qed.

Lemma fraction_stops frac ex tail :
  fraction frac -> exponent_part ex -> non_numeric tail ->
  stops (frac ++ ex ++ tail).
Proof.
  intros [-> | (fp & -> & _)] Hex Htail.
  - cbn [app]. now apply exponent_part_stops.
  - reflexivity.
Qed.

(** The digits and the exponent [scan_decimal] reads from a decimal
    literal, whatever text without digits follows it. *)
Lemma scan_decimal_literal ip frac ex tail :
  Forall digit ip -> fraction frac -> exponent_part ex ->
  ip <> [] \/ (exists c fp, frac = 46 :: c :: fp) ->
  non_numeric tail ->
  trim_start (ip ++ frac ++ ex ++ tail) = ip ++ frac ++ ex ++ tail
  /\ ip ++ tl frac <> []
  /\ scan_decimal (ip ++ frac ++ ex ++ tail)
     = LDecimal false (ip ++ tl frac)
         (read_exponent ex - Z.of_nat (List.length (tl frac))).
Proof.
  intros Hip Hfrac Hex Hdigit Htail.
  apply digits_iff in Hip.
  assert (Hne : ip ++ tl frac <> []).
  { destruct Hdigit as [H | (c & fp & ->)].
    - destruct ip; [contradiction | discriminate].
    - cbn. now destruct ip. }
  assert (Hhead : exists c r,
             ip ++ frac ++ ex ++ tail = c :: r
             /\ (is_digit c = true \/ c = 46)).
  { destruct ip as [|d ip'].
    - destruct Hdigit as [H | (c & fp & ->)]; [contradiction|].
      cbn. eauto.
    - cbn in Hip. apply andb_true_iff in Hip as [Hd _]. cbn. eauto. }
  destruct Hhead as (c & r & Heq & Hc).
  split; [|split; [exact Hne|]].
  - rewrite Heq. unfold trim_start. cbn.
    replace (is_space c) with false; [reflexivity|].
    symmetry. destruct Hc as [Hc | ->]; [now apply digit_not_space|].
    reflexivity.
  - unfold scan_decimal. rewrite Heq, (read_sign_plain c r Hc).
    replace (starts_with (js "Infinity") (c :: r)) with false.
    2:{ change (starts_with (js "Infinity") (c :: r))
          with (N.eqb 73 c && starts_with (js "nfinity") r)%bool.
        replace (N.eqb 73 c) with false; [reflexivity|].
        symmetry. apply N.eqb_neq. destruct Hc as [Hc | ->]; [|lia].
        unfold is_digit in Hc. apply in_range_iff in Hc. lia. }
    rewrite <- Heq.
    pose proof (fraction_stops frac ex tail Hfrac Hex Htail) as Hstop.
    rewrite take_while_stop, drop_while_stop by assumption.
    destruct (read_fraction_part frac ex tail Hfrac Hex Htail)
      as (r' & -> & ->).
    destruct (ip ++ tl frac); [contradiction | reflexivity].
Qed.

(** What a scanned exponent part denotes. *)
Lemma exponent_value_digit e d ed :
  is_digit d = true ->
  exponent_value (e :: d :: ed) = digits_value (d :: ed).
Proof.
  intros Hd. unfold is_digit in Hd. apply in_range_iff in Hd.
  unfold exponent_value.
  replace (N.eqb d 45) with false by (symmetry; apply N.eqb_neq; lia).
  replace (N.eqb d 43) with false by (symmetry; apply N.eqb_neq; lia).
  reflexivity.
Qed.

Lemma read_exponent_value ex :
  exponent_part ex -> read_exponent ex = exponent_value ex.
Proof.
  intros [-> | (e & sg & ed & -> & He & Hsg & Hne & Hed)]; [reflexivity|].
  apply digits_iff in Hed.
  destruct ed as [|d ed']; [contradiction|].
  assert (Hd : is_digit d = true)
    by (cbn in Hed; apply andb_true_iff in Hed; tauto).
  cbn [read_exponent].
  replace (N.eqb e 101 || N.eqb e 69)%bool with true
    by (cbn in He; destruct He as [<- | [<- | []]]; reflexivity).
  destruct Hsg as [-> | [-> | ->]]; cbn [app js map list_ascii_of_string].
  - rewrite read_sign_plain by (now left).
    rewrite take_while_digits by exact Hed.
    now rewrite exponent_value_digit.
  - cbn [read_sign N_of_ascii N.eqb]. cbn.
    rewrite Hd. cbn in Hed. rewrite Hd in Hed. cbn in Hed.
    now rewrite take_while_digits.
  - cbn. rewrite Hd. cbn in Hed. rewrite Hd in Hed. cbn in Hed.
    now rewrite take_while_digits.
Qed.

(** [parseFloat] on a decimal literal followed by text without digits is
    the Number value of the literal. *)
Lemma parseFloat_literal ip frac ex tail :
  Forall digit ip -> fraction frac -> exponent_part ex ->
  ip <> [] \/ (exists c fp, frac = 46 :: c :: fp) ->
  non_numeric tail ->
  parseFloat (ip ++ frac ++ ex ++ tail)
  = decimal_value ip (tl frac) (exponent_value ex).
Proof.
  intros Hip Hfrac Hex Hdigit Htail.
  destruct (scan_decimal_literal ip frac ex tail Hip Hfrac Hex Hdigit Htail)
    as (Htrim & Hne & Hscan).
  unfold parseFloat. rewrite Htrim, Hscan.
  unfold literal_value, decimal_value.
  now rewrite (read_exponent_value ex Hex).
Qed.

(** [parseFloat] reads the decimal literal a token starts with and
    ignores text without digits after it. *)
Lemma parseFloat_prefix lit tail :
  DecimalLiteral lit -> non_numeric tail ->
  parseFloat (lit ++ tail) = parseFloat lit.
Proof.
  intros (ip & frac & ex & -> & Hip & Hfrac & Hex & Hdigit) Htail.
  rewrite <- !app_assoc.
  rewrite (parseFloat_literal ip frac ex tail Hip Hfrac Hex Hdigit Htail).
  rewrite <- (parseFloat_literal ip frac ex [] Hip Hfrac Hex Hdigit);
    [|constructor].
  now rewrite !app_nil_r.
Qed.

Lemma pow10_IZR n : (0 <= n)%Z -> powerRZ 10 n = IZR (10 ^ n).
Proof.
  intros H. rewrite <- (Z2Nat.id n H) at 1.
  rewrite <- pow_powerRZ, pow_IZR. now rewrite Z2Nat.id.
Qed.

Lemma parseFloat_overflow : parseFloat (js "1e400abc") = Infinity false.
Proof.
  unfold parseFloat.
  replace (scan_decimal (trim_start (js "1e400abc")))
    with (LDecimal false (js "1") 400) by reflexivity.
  unfold literal_value.
  replace (digits_value (js "1")) with 1%Z by reflexivity.
  apply of_real_inf.
  rewrite overflow_IZR, pow10_IZR, <- mult_IZR by lia.
  apply IZR_le, Z.leb_le. vm_compute. reflexivity.
Qed.

(** ** Durations with trailing text *)

(** C10 does not hold as stated: "1e400abc" is a decimal literal
    followed by text without digits, but its numeric prefix overflows to
    [Infinity]; in a browser the stop time of the tone is rejected and
    [playSong] shows the backend's error. *)
Lemma overflowing_duration_counterexample :
  DecimalLiteral (js "1e400") /\ non_numeric (js "abc")
  /\ parseFloat (js "1e400abc") = Infinity false
  /\ alerts (snd (run (browser (Fin 0)) (js "C4 1e400abc")))
     = [js "Error playing song: TypeError: time must be finite"].
Proof.
  split; [|split; [|split]].
  - exists (js "1"), (js ""), (js "e400"). repeat split.
    + digits.
    + now left.
    + right. exists 101, (js ""), (js "400"). repeat split.
      * cbn. tauto.
      * now left.
      * discriminate.
      * digits.
    + left. discriminate.
  - no_digits.
  - exact parseFloat_overflow.
  - rewrite (playSong_stop_rejected (browser (Fin 0)) (js "C4 1e400abc")
               [] [] (js "C4") (js "1e400abc") []
               (Fin (frequency_at (semitone 67 (js "") (js "4"))))
               (TypeError (js "time must be finite"))).
    + reflexivity.
    + reflexivity.
    + constructor.
    + exact note_C4.
    + intros h c [<- | Hc]; [reflexivity|]. apply browser_accepts.
      cbn [trace_from app List.length Nat.mul cursor_after fold_left
             currentTime browser] in Hc.
      revert c Hc. apply tone_begun_well_formed.
      * apply float_low_note. cbn. lia.
      * apply finite_nonneg_Fin. lra.
    + intros h.
      cbn [rejects browser cursor_after fold_left currentTime].
      rewrite parseFloat_overflow. reflexivity.
Qed.

(** C10, as the code has it.  A duration token that is a decimal literal
    followed by text without digits, such as "0.5abc", is read as the
    literal: [parseFloat] gives the Number value of the numeric prefix,
    the double nearest to it, which is [Infinity] when the prefix
    overflows.  When the backend accepts the calls, [playSong] plays the
    song without an alert, and each tone lasts for the value of the
    numeric prefix of its duration token. *)
Theorem duration_numeric_prefix :
  (forall ip frac ex tail,
      Forall digit ip -> fraction frac -> exponent_part ex ->
      ip <> [] \/ (exists c fp, frac = 46 :: c :: fp) ->
      non_numeric tail ->
      parseFloat (ip ++ frac ++ ex ++ tail)
      = decimal_value ip (tl frac) (exponent_value ex))
  /\ (forall lit tail,
         DecimalLiteral lit -> non_numeric tail ->
         parseFloat (lit ++ tail) = parseFloat lit)
  /\ (forall b data pairs tones,
         pairs_of (split_ws (trim data)) = Some pairs ->
         Forall2 (fun p fd =>
                    noteToFrequency (fst p) = Normal (fst fd)
                    /\ exists lit tail,
                        snd p = lit ++ tail /\ DecimalLiteral lit
                        /\ non_numeric tail /\ snd fd = parseFloat lit)
           pairs tones ->
         (forall h c,
             In c (NewAudioContext :: trace_from 0 (currentTime b) tones) ->
             rejects b h c = None) ->
         run b data
         = (Normal tt,
            mkWorld (NewAudioContext :: trace_from 0 (currentTime b) tones)
              [] (2 * List.length tones)))
  /\ parseFloat (js "0.5abc") = Fin (1 / 2).
Proof.
  split; [exact parseFloat_literal|].
  split; [exact parseFloat_prefix|]. split.
  - intros b data pairs tones Hp Hall Hacc. unfold run.
    assert (Ht : Forall2 tone_of pairs tones).
    { clear Hp Hacc. induction Hall as [|p fd pairs tones H _ IH].
      - constructor.
      - destruct H as (Hf & lit & tail & Hd & Hlit & Htail & Hv).
        constructor; [|exact IH].
        split; [exact Hf|].
        rewrite Hv, <- (parseFloat_prefix lit tail Hlit Htail).
        f_equal. symmetry. exact Hd. }
    now rewrite (playSong_accepted b data pairs tones initial Hp Ht Hacc).
  - change (js "0.5abc") with (js "0.5" ++ js "abc").
    rewrite (parseFloat_prefix (js "0.5") (js "abc") literal_half)
      by no_digits.
    exact parseFloat_half.
Qed.

Lemma duration_numeric_prefix_witness :
  run (browser (Fin 0)) (js "C4 0.5abc")
  = (Normal tt,
     mkWorld
       (NewAudioContext
        :: trace_from 0 (Fin 0)
             [(Fin (frequency_at (semitone 67 (js "") (js "4"))),
               parseFloat (js "0.5"))])
       [] 2).
Proof.
  apply (proj1 (proj2 (proj2 duration_numeric_prefix)) (browser (Fin 0))
           (js "C4 0.5abc") [(js "C4", js "0.5abc")]
           [(Fin (frequency_at (semitone 67 (js "") (js "4"))),
             parseFloat (js "0.5"))]).
  - reflexivity.
  - constructor; [|constructor]. split.
    + exact note_C4.
    + exists (js "0.5"), (js "abc"). repeat split.
      * exact literal_half.
      * no_digits.
  - intros h c. apply browser_takes. exact playable_C4.
Defined.

(** ** Songs that fail part of the way *)

(** C3 does not hold as stated: on the song "C4 0.5 H4 0.5", which fails
    validation, the tone of the first pair is scheduled before the
    invalid note of the second pair is met. *)
Lemma partial_playback_counterexample :
  ~ valid_song (split_ws (trim (js "C4 0.5 H4 0.5")))
  /\ tones_scheduled (snd (run (browser (Fin 0)) (js "C4 0.5 H4 0.5")))
     = 1%nat.
Proof.
  split.
  - intros (pairs & Hp & Hv).
    replace (split_ws (trim (js "C4 0.5 H4 0.5")))
      with (tokens_of [(js "C4", js "0.5"); (js "H4", js "0.5")]) in Hp
      by reflexivity.
    rewrite pairs_of_tokens_of in Hp. inversion Hp; subst pairs.
    inversion Hv as [|? ? _ Hv']; subst.
    inversion Hv' as [|? ? [Hbad _] _]; subst.
    apply note_match_iff in Hbad as [m Hm]. discriminate.
  - unfold run.
    rewrite (playSong_invalid_note (browser (Fin 0)) (js "C4 0.5 H4 0.5")
               [(js "C4", js "0.5")]
               [(Fin (frequency_at (semitone 67 (js "") (js "4"))),
                 parseFloat (js "0.5"))]
               (js "H4") (js "0.5") [] (Error (js "Invalid note: H4"))
               initial).
    + reflexivity.
    + reflexivity.
    + constructor; [|constructor]. split; [exact note_C4 | reflexivity].
    + reflexivity.
    + intros h c. apply browser_takes. exact playable_C4.
Qed.

(** C3, as the code has it.  An odd token count stops [playSong] before
    any audio call.  An invalid note token stops it where it stands: when
    the pairs before that token resolve and the backend accepts their
    calls, their tones have been scheduled, one alert shows the "Invalid
    note" error, and no tone is scheduled for the pair of the invalid
    note or for a later pair. *)
Theorem invalid_note_stops_playback :
  (forall b data,
      Nat.Odd (List.length (split_ws (trim data))) ->
      calls (snd (run b data)) = [])
  /\ (forall b data pairs tones bad d later,
         pairs_of (split_ws (trim data)) = Some (pairs ++ (bad, d) :: later) ->
         Forall2 tone_of pairs tones ->
         (forall h c,
             In c (NewAudioContext :: trace_from 0 (currentTime b) tones) ->
             rejects b h c = None) ->
         ~ NoteToken bad ->
         run b data
         = (Normal tt,
            mkWorld
              (NewAudioContext :: trace_from 0 (currentTime b) tones)
              [js "Error playing song: Error: Invalid note: " ++ bad]
              (2 * List.length pairs))
         /\ tones_scheduled (snd (run b data)) = List.length pairs).
Proof.
  split.
  - intros b data H. apply Nat.odd_spec in H.
    unfold run. now rewrite (playSong_odd b data initial H).
  - intros b data pairs tones bad d later Hp Ht Hacc Hbad.
    assert (Hrun : run b data
              = (Normal tt,
                 mkWorld
                   (NewAudioContext :: trace_from 0 (currentTime b) tones)
                   [js "Error playing song: Error: Invalid note: " ++ bad]
                   (2 * List.length pairs))).
    { unfold run.
      rewrite (playSong_invalid_note b data pairs tones bad d later
                 (Error (js "Invalid note: " ++ bad)) initial Hp Ht
                 (invalid_note_error bad Hbad) Hacc).
      rewrite (Forall2_length_eq _ _ _ Ht). reflexivity. }
    split; [exact Hrun|].
    rewrite Hrun. unfold tones_scheduled. cbn [snd calls filter is_start].
    rewrite starts_in_trace. symmetry. exact (Forall2_length_eq _ _ _ Ht).
Qed.

Lemma invalid_note_stops_playback_witness :
  run (browser (Fin 0)) (js "C4 0.5 H4 0.5 D4 0.5")
  = (Normal tt,
     mkWorld
       (NewAudioContext
        :: trace_from 0 (Fin 0)
             [(Fin (frequency_at (semitone 67 (js "") (js "4"))),
               parseFloat (js "0.5"))])
       [js "Error playing song: Error: Invalid note: H4"] 2)
  /\ tones_scheduled
       (snd (run (browser (Fin 0)) (js "C4 0.5 H4 0.5 D4 0.5")))
     = 1%nat.
Proof.
  apply (proj2 invalid_note_stops_playback (browser (Fin 0))
           (js "C4 0.5 H4 0.5 D4 0.5") [(js "C4", js "0.5")]
           [(Fin (frequency_at (semitone 67 (js "") (js "4"))),
             parseFloat (js "0.5"))]
           (js "H4") (js "0.5") [(js "D4", js "0.5")]).
  - reflexivity.
  - constructor; [|constructor]. split; [exact note_C4 | reflexivity].
  - intros h c. apply browser_takes. exact playable_C4.
  - intros H. apply note_match_iff in H as [m Hm]. discriminate.
Defined.

(** ** Durations the backend does not take *)

Lemma run_negative_duration :
  run (browser (Fin 0)) (js "C4 -1 D4 0.5")
  = (Normal tt,
     mkWorld
       [ NewAudioContext; CreateOscillator 0; CreateGain 1;
         SetFrequency 0 (Fin (frequency_at (semitone 67 (js "") (js "4"))));
         SetType 0 (js "square"); Connect 0 (Node 1); Connect 1 Destination;
         SetValueAtTime 1 (of_real (1 / 10)) (Fin 0); Start 0 (Fin 0) ]
       [js "Error playing song: RangeError: time must not be negative"]
       2).
Proof.
  rewrite (playSong_stop_rejected (browser (Fin 0)) (js "C4 -1 D4 0.5")
             [] [] (js "C4") (js "-1") [(js "D4", js "0.5")]
             (Fin (frequency_at (semitone 67 (js "") (js "4"))))
             (RangeError (js "time must not be negative"))).
  - reflexivity.
  - reflexivity.
  - constructor.
  - exact note_C4.
  - intros h c [<- | Hc]; [reflexivity|]. apply browser_accepts.
    cbn [trace_from app List.length Nat.mul cursor_after fold_left
           currentTime browser] in Hc.
    revert c Hc. apply tone_begun_well_formed.
    + apply float_low_note. cbn. lia.
    + apply finite_nonneg_Fin. lra.
  - intros h. cbn [rejects browser cursor_after fold_left currentTime].
    rewrite parseFloat_minus_one, add_0_minus_1.
    unfold check_time. now rewrite Rneg_true by lra.
Qed.

(** C4 does not hold as stated: on the song "C4 -1 D4 0.5" the tone of
    the first pair is started whatever the backend does with the
    negative duration.  A browser
    rejects the stop time, and the error that is shown is the backend's;
    a backend that takes every call plays both tones and nothing fails. *)
Lemma negative_duration_counterexample :
  ~ valid_duration (js "-1")
  /\ tones_scheduled (snd (run (browser (Fin 0)) (js "C4 -1 D4 0.5")))
     = 1%nat
  /\ alerts (snd (run (browser (Fin 0)) (js "C4 -1 D4 0.5")))
     = [js "Error playing song: RangeError: time must not be negative"]
  /\ tones_scheduled (snd (run (mock (Fin 0)) (js "C4 -1 D4 0.5")))
     = 2%nat
  /\ alerts (snd (run (mock (Fin 0)) (js "C4 -1 D4 0.5"))) = [].
Proof.
  assert (Hmock :
            run (mock (Fin 0)) (js "C4 -1 D4 0.5")
            = (Normal tt,
               mkWorld
                 (NewAudioContext
                  :: trace_from 0 (Fin 0)
                       [(Fin (frequency_at (semitone 67 (js "") (js "4"))),
                         parseFloat (js "-1"));
                        (Fin (frequency_at (semitone 68 (js "") (js "4"))),
                         parseFloat (js "0.5"))])
                 [] 4)).
  { unfold run.
    rewrite (playSong_accepted (mock (Fin 0)) (js "C4 -1 D4 0.5")
               [(js "C4", js "-1"); (js "D4", js "0.5")]
               [(Fin (frequency_at (semitone 67 (js "") (js "4"))),
                 parseFloat (js "-1"));
                (Fin (frequency_at (semitone 68 (js "") (js "4"))),
                 parseFloat (js "0.5"))]
               initial).
    - reflexivity.
    - reflexivity.
    - repeat constructor; [exact note_C4 | exact note_D4].
    - reflexivity. }
  split; [|split; [|split; [|split]]].
  - unfold valid_duration. rewrite parseFloat_minus_one.
    intros (r & Hr & Hpos). inversion Hr. lra.
  - now rewrite run_negative_duration.
  - now rewrite run_negative_duration.
  - rewrite Hmock. unfold tones_scheduled. cbn [snd calls filter is_start].
    now rewrite starts_in_trace.
  - now rewrite Hmock.
Qed.

(** C4, as the code has it.  [playSong] never checks a duration token.
    On a backend that takes every call, a song with valid notes plays
    whatever its duration tokens are.  When the backend accepts the calls
    up to [osc.start(t)] of a pair and rejects its stop time (cursor plus
    the parsed duration), the tone of that pair has been created and
    started; the backend's error is shown in one alert and the later
    pairs are not played. *)
Theorem duration_not_validated :
  (forall b data pairs tones,
      (forall h c, rejects b h c = None) ->
      pairs_of (split_ws (trim data)) = Some pairs ->
      Forall2 tone_of pairs tones ->
      run b data
      = (Normal tt,
         mkWorld (NewAudioContext :: trace_from 0 (currentTime b) tones) []
           (2 * List.length tones)))
  /\ (forall b data pairs tones n d later f e,
         pairs_of (split_ws (trim data)) = Some (pairs ++ (n, d) :: later) ->
         Forall2 tone_of pairs tones ->
         noteToFrequency n = Normal f ->
         (forall h c,
             In c (NewAudioContext
                   :: trace_from 0 (currentTime b) tones
                      ++ removelast
                           (tone_calls (2 * List.length tones) f
                              (cursor_after (currentTime b) tones)
                              (parseFloat d))) ->
             rejects b h c = None) ->
         (forall h,
             rejects b h
               (Stop (2 * List.length tones)
                  (add (cursor_after (currentTime b) tones) (parseFloat d)))
             = Some e) ->
         run b data
         = (Normal tt,
            mkWorld
              (NewAudioContext
               :: trace_from 0 (currentTime b) tones
                  ++ removelast
                       (tone_calls (2 * List.length tones) f
                          (cursor_after (currentTime b) tones)
                          (parseFloat d)))
              [js "Error playing song: " ++ toString e]
              (S (S (2 * List.length tones))))
         /\ tones_scheduled (snd (run b data)) = S (List.length tones)).
Proof.
  split.
  - intros b data pairs tones Hall Hp Ht. unfold run.
    now rewrite (playSong_accepted b data pairs tones initial Hp Ht).
  - intros b data pairs tones n d later f e Hp Ht Hf Hacc Hrej.
    pose proof (playSong_stop_rejected b data pairs tones n d later f e
                  Hp Ht Hf Hacc Hrej) as Hrun.
    split; [exact Hrun|].
    rewrite Hrun. unfold tones_scheduled. cbn [snd calls filter is_start].
    rewrite filter_app, length_app, starts_in_trace. cbn. lia.
Qed.

Lemma duration_not_validated_witness :
  run (mock (Fin 0)) (js "C4 -1 D4 abc")
  = (Normal tt,
     mkWorld
       (NewAudioContext
        :: trace_from 0 (Fin 0)
             [(Fin (frequency_at (semitone 67 (js "") (js "4"))),
               parseFloat (js "-1"));
              (Fin (frequency_at (semitone 68 (js "") (js "4"))),
               parseFloat (js "abc"))])
       [] 4)
  /\ tones_scheduled (snd (run (browser (Fin 0)) (js "C4 -1 D4 0.5")))
     = 1%nat.
Proof.
  split.
  - apply (proj1 duration_not_validated (mock (Fin 0)) (js "C4 -1 D4 abc")
             [(js "C4", js "-1"); (js "D4", js "abc")]).
    + reflexivity.
    + reflexivity.
    + repeat constructor.
      * exact note_C4.
      * exact note_D4.
  - apply (proj2 duration_not_validated (browser (Fin 0))
             (js "C4 -1 D4 0.5") [] [] (js "C4") (js "-1")
             [(js "D4", js "0.5")]
             (Fin (frequency_at (semitone 67 (js "") (js "4"))))
             (RangeError (js "time must not be negative"))).
    + reflexivity.
    + constructor.
    + exact note_C4.
    + intros h c [<- | Hc]; [reflexivity|]. apply browser_accepts.
      cbn [trace_from app List.length Nat.mul cursor_after fold_left
             currentTime browser] in Hc.
      revert c Hc. apply tone_begun_well_formed.
      * apply float_low_note. cbn. lia.
      * apply finite_nonneg_Fin. lra.
    + intros h. cbn [rejects browser cursor_after fold_left currentTime].
      rewrite parseFloat_minus_one, add_0_minus_1.
      unfold check_time. now rewrite Rneg_true by lra.
Defined.

(* ================================================================= *)
(** * Further properties of the code *)

(** ** Equal temperament *)

(** For the notes A the exponent of the formula is the integer
    octave - 4 and nothing is rounded. *)
Lemma frequency_at_A v :
  (0 <= v <= 1019)%Z ->
  frequency_at ((v + 1) * 12 + 9) = (440 * powerRZ 2 (v - 4))%R.
Proof.
  intros Hv. unfold frequency_at.
  replace ((IZR ((v + 1) * 12 + 9) - 69) / 12)%R with (IZR (v - 4)).
  2:{ rewrite plus_IZR, mult_IZR, plus_IZR, minus_IZR. field. }
  rewrite (round_id (IZR (v - 4))) by (apply representable_IZR; lia).
  rewrite <- powerRZ_Rpower by lra.
  rewrite (round_id (powerRZ 2 (v - 4))) by (apply representable_pow2; lia).
  apply round_id. exists 440%Z, (v - 4)%Z.
  split; [reflexivity | split; [reflexivity | lia]].
Qed.

(** The notes A are exact, and one octave up doubles them: for the
    letter A without accidental and an octave number up to 1019,
    [noteToFrequency] returns exactly 440 * 2^(octave - 4), so the A of
    the next octave has exactly twice the frequency. *)
Theorem octave_doubles ds ds' :
  ds <> [] -> Forall digit ds -> ds' <> [] -> Forall digit ds' ->
  digits_value ds' = (digits_value ds + 1)%Z ->
  (digits_value ds' <= 1019)%Z ->
  noteToFrequency (65 :: ds)
  = Normal (Fin (440 * powerRZ 2 (digits_value ds - 4)))
  /\ noteToFrequency (65 :: ds')
     = Normal (Fin (2 * (440 * powerRZ 2 (digits_value ds - 4)))).
Proof.
  intros Hne Hds Hne' Hds' Hoct Hmax.
  pose proof (digits_nonneg ds Hds) as H0.
  assert (HA : letter 65) by (unfold letter; cbn; tauto).
  assert (Hnat : accidental []) by now left.
  destruct (noteToFrequency_small 65 [] ds HA Hnat Hne Hds) as [H1 _];
    [unfold semitone; cbn [base_offset accidental_shift N.eqb]; cbn; lia|].
  destruct (noteToFrequency_small 65 [] ds' HA Hnat Hne' Hds') as [H2 _];
    [unfold semitone; cbn [base_offset accidental_shift N.eqb]; cbn; lia|].
  cbn [app] in H1, H2. unfold semitone in H1, H2.
  replace (base_offset 65) with 9%Z in H1, H2 by reflexivity.
  replace (accidental_shift []) with 0%Z in H1, H2 by reflexivity.
  rewrite Z.add_0_r, frequency_at_A in H1, H2 by lia.
  split; [exact H1|].
  etransitivity; [exact H2|]. do 2 f_equal.
  rewrite Hoct.
  replace (digits_value ds + 1 - 4)%Z with (1 + (digits_value ds - 4))%Z
    by ring.
  rewrite pow2_add. change (powerRZ 2 1) with (2 * 1)%R. ring.
Qed.

Lemma octave_doubles_witness :
  noteToFrequency (js "A4")
  = Normal (Fin (440 * powerRZ 2 (digits_value (js "4") - 4)))
  /\ noteToFrequency (js "A5")
     = Normal (Fin (2 * (440 * powerRZ 2 (digits_value (js "4") - 4)))).
Proof.
  apply (octave_doubles (js "4") (js "5")).
  - discriminate.
  - apply digits_iff. reflexivity.
  - discriminate.
  - apply digits_iff. reflexivity.
  - reflexivity.
  - cbn. lia.
Defined.

Section Order.

Local Open Scope R_scope.

(** The error of rounding is at most half the spacing. *)
Lemma round_error x :
  Rabs (x - round x) <= powerRZ 2 (ulp_exponent x) / 2.
Proof.
  unfold round. set (g := powerRZ 2 (ulp_exponent x)).
  assert (Hg : 0 < g) by apply pow2_pos.
  pose proof (nearest_even_close (x / g)) as H.
  set (n := nearest_even (x / g)) in *.
  replace (x - IZR n * g) with ((x / g - IZR n) * g) by (field; lra).
  rewrite Rabs_mult, (Rabs_pos_eq g) by lra.
  apply (Rmult_le_compat_r g) in H; lra.
Qed.

Lemma pow2_minus_10 : powerRZ 2 (-10) = 1 / 1024.
Proof.
  unfold powerRZ. change (Pos.to_nat 10) with 10%nat. simpl pow. field.
Qed.

(** Below 2048 the error is far below a thousandth. *)
Lemma round_error_small u :
  Rabs u < powerRZ 2 11 -> Rabs (u - round u) <= 1 / 1000.
Proof.
  intros Hu. destruct (Req_dec u 0) as [-> | Hne].
  { rewrite round_0, Rminus_0_r, Rabs_R0. lra. }
  destruct (binade_spec u Hne) as [Hlo _].
  assert (Hb : (binade u < 11)%Z) by (apply pow2_lt_inv; lra).
  pose proof (round_error u) as He.
  assert (Hg : powerRZ 2 (ulp_exponent u) <= powerRZ 2 (-10)).
  { apply pow2_le. unfold ulp_exponent. lia. }
  rewrite pow2_minus_10 in Hg. lra.
Qed.

(** In the normal range the relative error is far below a thousandth. *)
Lemma round_near a :
  powerRZ 2 (-1022) <= a ->
  999 / 1000 * a <= round a <= 1001 / 1000 * a.
Proof.
  intros Ha. pose proof (pow2_pos (-1022)) as Hp.
  assert (Hne : a <> 0) by lra.
  destruct (binade_spec a Hne) as [Hlo Hhi].
  rewrite Rabs_pos_eq in Hlo, Hhi by lra.
  assert (Hb : (-1022 < binade a + 1)%Z) by (apply pow2_lt_inv; lra).
  pose proof (round_error a) as He.
  assert (Hu : ulp_exponent a = (binade a - 52)%Z)
    by (unfold ulp_exponent; lia).
  rewrite Hu in He.
  assert (Hg : powerRZ 2 (binade a - 52)
               = powerRZ 2 (binade a) * powerRZ 2 (-52)).
  { rewrite <- pow2_add. f_equal. }
  assert (H52 : powerRZ 2 (-52) <= 1 / 1024).
  { rewrite <- pow2_minus_10. apply pow2_le. lia. }
  pose proof (pow2_pos (-52)) as H52'.
  pose proof (pow2_pos (binade a)) as HE.
  assert (Hd : Rabs (a - round a) <= a / 1000).
  { apply Rle_trans with (1 := He). rewrite Hg.
    assert (powerRZ 2 (binade a) * powerRZ 2 (-52)
            <= a * (1 / 1024)).
    { apply Rmult_le_compat; lra. }
    lra. }
  unfold Rabs in Hd. destruct (Rcase_abs (a - round a)); lra.
Qed.

(** The rounded formula grows strictly with the index as long as it is
    finite: a step of the index moves the exponent by a twelfth, more
    than the three roundings can make up for. *)
Lemma frequency_at_lt i j :
  (11 <= i)%Z -> (i < j)%Z -> (j <= 12251)%Z ->
  frequency_at i < frequency_at j.
Proof.
  intros Hi Hij Hj. unfold frequency_at.
  set (u := (IZR i - 69) / 12). set (u' := (IZR j - 69) / 12).
  assert (Hii : 11 <= IZR i <= 12251) by (split; apply IZR_le; lia).
  assert (Hjj : 11 <= IZR j <= 12251) by (split; apply IZR_le; lia).
  assert (Hstep : IZR i + 1 <= IZR j).
  { rewrite <- plus_IZR. apply IZR_le. lia. }
  assert (H11 : powerRZ 2 11 = 2048).
  { rewrite pow2_IZR by lia. reflexivity. }
  assert (Hu : Rabs (u - round u) <= 1 / 1000).
  { apply round_error_small. rewrite H11. apply Rabs_def1; unfold u; lra. }
  assert (Hu' : Rabs (u' - round u') <= 1 / 1000).
  { apply round_error_small. rewrite H11. apply Rabs_def1; unfold u'; lra. }
  set (x := round u) in *. set (x' := round u') in *.
  assert (Hx : -6 <= x /\ 1 / 16 <= x' - x).
  { unfold Rabs in Hu, Hu'.
    destruct (Rcase_abs (u - x)), (Rcase_abs (u' - x'));
      unfold u, u' in *; lra. }
  destruct Hx as [Hx0 Hd].
  (* the powers *)
  set (P := Rpower 2 x). set (P' := Rpower 2 x').
  assert (HP : powerRZ 2 (-6) <= P).
  { unfold P. rewrite powerRZ_Rpower by lra. apply Rle_Rpower; lra. }
  pose proof (pow2_pos (-6)) as H6.
  assert (HPP : 33 / 32 * P <= P').
  { unfold P'. replace x' with (x + (x' - x)) by ring.
    rewrite Rpower_plus. fold P.
    assert (Hq : 33 / 32 <= Rpower 2 (x' - x)).
    { unfold Rpower. pose proof (exp_ineq1_le ((x' - x) * ln 2)) as He.
      pose proof ln_lt_2 as Hl.
      assert (1 / 32 <= (x' - x) * ln 2) by nra. lra. }
    rewrite (Rmult_comm (33 / 32)). apply Rmult_le_compat_l; lra. }
  assert (Hnormal : powerRZ 2 (-1022) <= powerRZ 2 (-6))
    by (apply pow2_le; lia).
  destruct (round_near P) as [_ Hp]; [lra|].
  destruct (round_near P') as [Hp' _]; [lra|].
  set (p := round P) in *. set (p' := round P') in *.
  assert (Hp0 : 999 / 1000 * P <= p).
  { destruct (round_near P) as [H _]; [lra | exact H]. }
  destruct (round_near (440 * p)) as [_ Hq]; [lra|].
  destruct (round_near (440 * p')) as [Hq' _]; [lra|].
  assert (HPpos : 0 < P) by lra.
  lra.
Qed.

End Order.

(** While nothing overflows, the frequency grows strictly with the
    semitone index: for two tokens of the grammar with semitone indices
    up to 12251, the first frequency is smaller exactly when the first
    semitone index is smaller, so the frequencies are equal only when the
    semitone indices are. *)
Theorem frequency_orders_semitones l a ds l' a' ds' :
  letter l -> accidental a -> ds <> [] -> Forall digit ds ->
  letter l' -> accidental a' -> ds' <> [] -> Forall digit ds' ->
  (semitone l a ds <= 12251)%Z -> (semitone l' a' ds' <= 12251)%Z ->
  exists f f',
    noteToFrequency (l :: a ++ ds) = Normal (Fin f)
    /\ noteToFrequency (l' :: a' ++ ds') = Normal (Fin f')
    /\ ((f < f')%R <-> (semitone l a ds < semitone l' a' ds')%Z)
    /\ (f = f' <-> semitone l a ds = semitone l' a' ds').
Proof.
  intros Hl Ha Hne Hds Hl' Ha' Hne' Hds' Hv Hv'.
  exists (frequency_at (semitone l a ds)),
         (frequency_at (semitone l' a' ds')).
  split; [exact (proj1 (noteToFrequency_small l a ds Hl Ha Hne Hds Hv))|].
  split;
    [exact (proj1 (noteToFrequency_small l' a' ds' Hl' Ha' Hne' Hds' Hv'))|].
  assert (Hi : (11 <= semitone l a ds)%Z).
  { pose proof (digits_nonneg ds Hds). pose proof (base_offset_range l).
    pose proof (accidental_shift_range a). unfold semitone. lia. }
  assert (Hj : (11 <= semitone l' a' ds')%Z).
  { pose proof (digits_nonneg ds' Hds'). pose proof (base_offset_range l').
    pose proof (accidental_shift_range a'). unfold semitone. lia. }
  set (i := semitone l a ds) in *. set (j := semitone l' a' ds') in *.
  split; split.
  - intros H. destruct (Z.lt_trichotomy i j) as [Hij | [Hij | Hij]].
    + exact Hij.
    + rewrite Hij in H. lra.
    + apply frequency_at_lt in Hij; [lra | lia | lia].
  - intros Hij. apply frequency_at_lt; lia.
  - intros H. destruct (Z.lt_trichotomy i j) as [Hij | [Hij | Hij]].
    + apply frequency_at_lt in Hij; [lra | lia | lia].
    + exact Hij.
    + apply frequency_at_lt in Hij; [lra | lia | lia].
  - intros ->. reflexivity.
Qed.

Lemma frequency_orders_semitones_witness :
  exists f f',
    noteToFrequency (js "B3") = Normal (Fin f)
    /\ noteToFrequency (js "Cb4") = Normal (Fin f')
    /\ ((f < f')%R
        <-> (semitone 66 (js "") (js "3") < semitone 67 (js "b") (js "4"))%Z)
    /\ (f = f'
        <-> semitone 66 (js "") (js "3") = semitone 67 (js "b") (js "4")).
Proof.
  apply (frequency_orders_semitones
           66 (js "") (js "3") 67 (js "b") (js "4")).
  - unfold letter. cbn. tauto.
  - now left.
  - discriminate.
  - apply digits_iff. reflexivity.
  - unfold letter. cbn. tauto.
  - right. now right.
  - discriminate.
  - apply digits_iff. reflexivity.
  - cbn. lia.
  - cbn. lia.
Defined.

(** ** Tokenization: [data.trim().split(/\s+/)] *)

Lemma drop_while_blank s : blank s = true -> drop_while is_space s = [].
Proof.
  unfold blank. induction s as [|c s IH]; cbn; [reflexivity|].
  rewrite andb_true_iff. intros [-> H]. now apply IH.
Qed.

Lemma drop_while_blank_app pad s :
  blank pad = true ->
  drop_while is_space (pad ++ s) = drop_while is_space s.
Proof.
  intros H. now apply drop_while_all.
Qed.

Lemma drop_while_head s :
  (blank s = true /\ drop_while is_space s = [])
  \/ (blank s = false
      /\ exists c r, drop_while is_space s = c :: r /\ is_space c = false).
Proof.
  unfold blank. induction s as [|c s IH]; cbn.
  - now left.
  - destruct (is_space c) eqn:Hc; cbn.
    + exact IH.
    + right. split; [reflexivity|]. now exists c, s.
Qed.

Lemma drop_while_snoc s c :
  is_space c = false ->
  drop_while is_space (s ++ [c]) = drop_while is_space s ++ [c].
Proof.
  intros Hc. induction s as [|x s IH]; cbn.
  - now rewrite Hc.
  - destruct (is_space x); [exact IH | reflexivity].
Qed.

Lemma ends_nonspace_snoc s c :
  ends_nonspace (s ++ [c]) = negb (is_space c).
Proof.
  induction s as [|x s IH]; [reflexivity|].
  cbn [app ends_nonspace]. destruct (s ++ [c]) eqn:E; [|exact IH].
  now destruct s.
Qed.

Lemma ends_nonspace_cons c r :
  r <> [] -> ends_nonspace (c :: r) = ends_nonspace r.
Proof.
  destruct r; [contradiction | reflexivity].
Qed.

Lemma ends_nonspace_rev s :
  ends_nonspace s = true ->
  exists c r, rev s = c :: r /\ is_space c = false.
Proof.
  destruct (rev s) as [|c r] eqn:E; intros H.
  - apply (f_equal (@rev _)) in E. rewrite rev_involutive in E.
    subst s. discriminate.
  - exists c, r. split; [reflexivity|].
    apply (f_equal (@rev _)) in E. rewrite rev_involutive in E.
    subst s. cbn [rev] in H. rewrite ends_nonspace_snoc in H.
    now apply negb_true_iff.
Qed.

(** What [trim] leaves: nothing of a blank text; otherwise a text that
    begins and ends with a character that is no white space. *)
Lemma trim_shape s :
  (blank s = true /\ trim s = [])
  \/ (blank s = false
      /\ exists c m,
          trim s = c :: m /\ is_space c = false
          /\ ends_nonspace (c :: m) = true).
Proof.
  unfold trim.
  destruct (drop_while_head s) as [[Hb ->] | (Hb & c & r & -> & Hc)].
  - now left.
  - right. split; [exact Hb|].
    cbn [rev]. rewrite (drop_while_snoc (rev r) c Hc), rev_app_distr.
    cbn [rev app]. eexists c, _. split; [reflexivity|]. split; [exact Hc|].
    destruct (drop_while_head (rev r)) as [[_ ->] | (_ & x & y & -> & Hx)].
    + cbn. now rewrite Hc.
    + cbn [rev]. rewrite app_comm_cons, ends_nonspace_snoc.
      now rewrite Hx.
Qed.

(** The scan yields clean parts when it cannot run into an empty one:
    inside a separator the text goes on and does not end in white space;
    outside, the part under way is not empty or the text starts it. *)
Lemma split_ws_from_clean (s : jsstring) :
  forall (cur : jsstring) (in_sep : bool),
    space_free cur = true ->
    (if in_sep then cur = [] /\ ends_nonspace s = true
     else (s = [] \/ ends_nonspace s = true)
          /\ (cur <> [] \/ exists c r, s = c :: r /\ is_space c = false)) ->
    Forall clean (split_ws_from cur in_sep s).
Proof.
  induction s as [|c r IH]; intros cur in_sep Hcur Hinv.
  - destruct in_sep.
    + destruct Hinv as [_ H]. discriminate.
    + destruct Hinv as [_ [H | (x & y & H & _)]]; [|discriminate].
      cbn. constructor; [|constructor]. now split.
  - cbn [split_ws_from]. destruct (is_space c) eqn:Hc.
    + assert (Hr : forall (He : ends_nonspace (c :: r) = true),
                 r <> [] /\ ends_nonspace r = true).
      { intros He. destruct r as [|x r'].
        - cbn in He. rewrite Hc in He. discriminate.
        - split; [discriminate | exact He]. }
      destruct in_sep.
      * destruct Hinv as [_ He]. apply IH; [reflexivity|].
        split; [reflexivity | apply Hr, He].
      * destruct Hinv as [[Hnil | He] Hstart]; [discriminate|].
        constructor.
        -- split; [|exact Hcur].
           destruct Hstart as [H | (x & y & H & Hx)]; [exact H|].
           inversion H; subst. congruence.
        -- apply IH; [reflexivity|].
           split; [reflexivity | apply Hr, He].
    + apply IH.
      * unfold space_free in *. rewrite forallb_app, Hcur. cbn.
        now rewrite Hc.
      * assert (He : ends_nonspace (c :: r) = true).
        { destruct in_sep; [tauto|].
          destruct Hinv as [[H | H] _]; [discriminate | exact H]. }
        split.
        -- destruct r as [|x r']; [now left | right; exact He].
        -- left. now destruct cur.
Qed.

Lemma split_ws_from_nonempty (s : jsstring) :
  forall (cur : jsstring) (in_sep : bool), split_ws_from cur in_sep s <> [].
Proof.
  induction s as [|c r IH]; intros cur in_sep; cbn; [discriminate|].
  destruct (is_space c); [|apply IH].
  destruct in_sep; [apply IH | discriminate].
Qed.

(** Tokens are never empty and never hold white space, whatever the song
    text, with one exception: a blank text (empty, or white space only)
    gives exactly one token, the empty one. *)
Theorem tokens_are_clean data :
  (blank data = true /\ split_ws (trim data) = [js ""])
  \/ (blank data = false
      /\ split_ws (trim data) <> []
      /\ Forall clean (split_ws (trim data))).
Proof.
  destruct (trim_shape data) as [[Hb ->] | (Hb & c & m & -> & Hc & He)].
  - now left.
  - right. split; [exact Hb|].
    assert (H : Forall clean (split_ws (c :: m))).
    { apply split_ws_from_clean; [reflexivity|].
      split; [now right | right; now exists c, m]. }
    split; [apply split_ws_from_nonempty | exact H].
Qed.

Lemma split_token_outside (t : jsstring) :
  space_free t = true ->
  forall cur rest,
    split_ws_from cur false (t ++ rest) = split_ws_from (cur ++ t) false rest.
Proof.
  unfold space_free. induction t as [|c t IH]; intros Ht cur rest.
  - now rewrite app_nil_r.
  - cbn in Ht. apply andb_true_iff in Ht as [Hc Ht].
    apply negb_true_iff in Hc. cbn [app split_ws_from]. rewrite Hc.
    rewrite (IH Ht). now rewrite <- app_assoc.
Qed.

Lemma split_token_after_separator (t rest : jsstring) :
  clean t ->
  split_ws_from [] true (t ++ rest) = split_ws_from t false rest.
Proof.
  intros [Hne Ht]. destruct t as [|c t]; [contradiction|].
  unfold space_free in Ht. cbn in Ht. apply andb_true_iff in Ht as [Hc Ht].
  apply negb_true_iff in Hc. cbn [app split_ws_from]. rewrite Hc.
  now rewrite (split_token_outside t Ht).
Qed.

Lemma split_separator_inside (s rest : jsstring) :
  blank s = true ->
  split_ws_from [] true (s ++ rest) = split_ws_from [] true rest.
Proof.
  unfold blank. induction s as [|c s IH]; intros Hs; [reflexivity|].
  cbn in Hs. apply andb_true_iff in Hs as [Hc Hs].
  cbn [app split_ws_from]. rewrite Hc. now apply IH.
Qed.

Lemma split_separator (s cur rest : jsstring) :
  s <> [] -> blank s = true ->
  split_ws_from cur false (s ++ rest) = cur :: split_ws_from [] true rest.
Proof.
  intros Hne Hs. destruct s as [|c s]; [contradiction|].
  unfold blank in Hs. cbn in Hs. apply andb_true_iff in Hs as [Hc Hs].
  cbn [app split_ws_from]. rewrite Hc.
  now rewrite (split_separator_inside s rest Hs).
Qed.

Lemma split_layout items :
  Forall (fun it => fst it <> [] /\ blank (fst it) = true /\ clean (snd it))
    items ->
  forall cur,
    split_ws_from cur false (layout items) = cur :: map snd items.
Proof.
  induction 1 as [|[s t] items (Hne & Hs & Ht) _ IH]; intros cur.
  - reflexivity.
  - cbn [fst snd] in *. unfold layout. cbn [flat_map fst snd map].
    fold (layout items). rewrite <- app_assoc.
    rewrite (split_separator s cur _ Hne Hs).
    rewrite (split_token_after_separator t _ Ht).
    now rewrite IH.
Qed.

Lemma blank_rev s : blank (rev s) = blank s.
Proof.
  unfold blank. induction s as [|c s IH]; [reflexivity|].
  cbn. rewrite forallb_app, IH. cbn. rewrite andb_true_r.
  apply andb_comm.
Qed.

Lemma clean_ends x t : clean t -> ends_nonspace (x ++ t) = true.
Proof.
  intros [Hne Ht].
  destruct (exists_last Hne) as (p & c & ->).
  unfold space_free in Ht. rewrite forallb_app in Ht.
  apply andb_true_iff in Ht as [_ Hc]. cbn in Hc. rewrite andb_true_r in Hc.
  now rewrite app_assoc, ends_nonspace_snoc.
Qed.

Lemma layout_ends items :
  Forall (fun it => fst it <> [] /\ blank (fst it) = true /\ clean (snd it))
    items ->
  forall x, ends_nonspace x = true -> ends_nonspace (x ++ layout items) = true.
Proof.
  induction 1 as [|[s t] items (_ & _ & Ht) _ IH]; intros x Hx.
  - now rewrite app_nil_r.
  - unfold layout. cbn [flat_map fst snd]. fold (layout items).
    rewrite !app_assoc. apply IH. now apply clean_ends.
Qed.

(** [trim] takes the white space around a text that begins and ends with
    a character that is no white space, and nothing else. *)
Lemma trim_padding pad body trail :
  blank pad = true -> blank trail = true ->
  (exists c m, body = c :: m /\ is_space c = false) ->
  ends_nonspace body = true ->
  trim (pad ++ body ++ trail) = body.
Proof.
  intros Hpad Htrail (c & m & -> & Hc) He. unfold trim.
  rewrite (drop_while_blank_app pad _ Hpad).
  cbn [app drop_while]. rewrite Hc.
  change (c :: m ++ trail) with ((c :: m) ++ trail).
  rewrite rev_app_distr.
  rewrite drop_while_blank_app by (now rewrite blank_rev).
  destruct (ends_nonspace_rev _ He) as (x & y & E & Hx).
  rewrite E. cbn [drop_while]. rewrite Hx.
  rewrite <- E. apply rev_involutive.
Qed.

(** The tokens of a song do not depend on its white space: however the
    tokens are laid out (any white space before the first token and
    after the last one, any non-empty run of white space between two
    tokens, line breaks included), tokenization gives the tokens back,
    and two layouts of the same tokens play the same. *)
Theorem layout_round_trip items trail :
  well_laid items -> blank trail = true ->
  split_ws (trim (layout items ++ trail)) = map snd items
  /\ forall b items' trail',
      well_laid items' -> blank trail' = true ->
      map snd items' = map snd items ->
      run b (layout items' ++ trail') = run b (layout items ++ trail).
Proof.
  assert (Htok : forall its tr,
             well_laid its -> blank tr = true ->
             split_ws (trim (layout its ++ tr)) = map snd its).
  { intros [|[pad tok] rest] tr Hw Htr; [contradiction|].
    destruct Hw as (Hpad & Htok & Hrest).
    unfold layout. cbn [flat_map fst snd map]. fold (layout rest).
    rewrite <- !app_assoc.
    replace (pad ++ tok ++ layout rest ++ tr)
      with (pad ++ (tok ++ layout rest) ++ tr)
      by now rewrite <- app_assoc.
    rewrite (trim_padding pad (tok ++ layout rest) tr Hpad Htr).
    - unfold split_ws.
      rewrite (split_token_outside tok (proj2 Htok)).
      now rewrite (split_layout rest Hrest).
    - destruct Htok as [Hne Hsf]. destruct tok as [|c m]; [contradiction|].
      exists c, (m ++ layout rest). split; [reflexivity|].
      unfold space_free in Hsf. cbn in Hsf.
      apply andb_true_iff in Hsf as [Hc _]. now apply negb_true_iff.
    - apply layout_ends; [exact Hrest|].
      now apply (clean_ends []). }
  intros Hw Htr. split; [now apply Htok|].
  intros b items' trail' Hw' Htr' Heq.
  unfold run, playSong, playSong_try.
  now rewrite (Htok items trail Hw Htr), (Htok items' trail' Hw' Htr'), Heq.
Qed.

Lemma layout_round_trip_witness :
  split_ws
    (trim
       (layout [([9], js "C4"); ([32; 32], js "0.5"); ([13; 10], js "D4");
                ([160], js "1")]
        ++ [10]))
  = [js "C4"; js "0.5"; js "D4"; js "1"].
Proof.
  apply (layout_round_trip
           [([9], js "C4"); ([32; 32], js "0.5"); ([13; 10], js "D4");
            ([160], js "1")]
           [10]).
  - split; [reflexivity|]. split; [split; [discriminate | reflexivity]|].
    repeat constructor; cbn; try discriminate.
  - reflexivity.
Defined.

(** ** What every run keeps *)

Section Invariants.

Variable b : backend.

Lemma grows_ret {A} (a : A) : grows 0 (ret a).
Proof.
  intros w r w' H. inversion H; subst. repeat split; [lia|].
  exists []. rewrite app_nil_r. repeat split; [constructor | cbn; lia].
Qed.

Lemma grows_lift {A} (c : completion A) : grows 0 (lift c).
Proof.
  intros w r w' H. inversion H; subst. repeat split; [lia|].
  exists []. rewrite app_nil_r. repeat split; [constructor | cbn; lia].
Qed.

Lemma grows_invoke c :
  tone_call c -> grows (if is_start c then 1 else 0) (invoke b c).
Proof.
  intros Hc w r w' H. unfold invoke in H.
  destruct (rejects b (calls w) c); inversion H; subst; cbn.
  - repeat split; [lia|]. exists []. rewrite app_nil_r.
    repeat split; [constructor | cbn; lia].
  - repeat split; [lia|]. exists [c].
    repeat split; [now constructor|]. cbn. destruct (is_start c); cbn; lia.
Qed.

Lemma grows_create mk :
  (forall n, tone_call (mk n)) -> (forall n, is_start (mk n) = false) ->
  grows 0 (create b mk).
Proof.
  intros Hc Hs w r w' H. unfold create in H.
  destruct (rejects b (calls w) (mk (fresh w))); inversion H; subst; cbn.
  - repeat split; [lia|]. exists []. rewrite app_nil_r.
    repeat split; [constructor | cbn; lia].
  - repeat split; [lia|]. exists [mk (fresh w)].
    repeat split; [now constructor|]. cbn. rewrite Hs. cbn. lia.
Qed.

Lemma grows_bind {A B} n1 n2 (m : M A) (k : A -> M B) :
  grows n1 m -> (forall a, grows n2 (k a)) -> grows (n1 + n2) (bind m k).
Proof.
  intros Hm Hk w r w' H. unfold bind in H.
  destruct (m w) as [[a | e] w1] eqn:E.
  - destruct (Hm _ _ _ E) as (Ha & Hf & cs & Hcs & Ht & Hn).
    destruct (Hk a _ _ _ H) as (Ha' & Hf' & cs' & Hcs' & Ht' & Hn').
    split; [congruence|]. split; [lia|]. exists (cs ++ cs').
    split; [now rewrite Hcs', Hcs, app_assoc|].
    split; [now apply Forall_app|].
    rewrite filter_app, length_app. lia.
  - inversion H; subst.
    destruct (Hm _ _ _ E) as (Ha & Hf & cs & Hcs & Ht & Hn).
    split; [exact Ha|]. split; [exact Hf|]. exists cs.
    repeat split; [exact Hcs | exact Ht | lia].
Qed.

Lemma grows_play_pair note durtok t : grows 1 (play_pair b note durtok t).
Proof.
  unfold play_pair.
  apply (grows_bind 0 1); [apply grows_lift | intros freq].
  apply (grows_bind 0 1);
    [apply grows_create; intros; [exact I | reflexivity] | intros osc].
  apply (grows_bind 0 1);
    [apply grows_create; intros; [exact I | reflexivity] | intros gain].
  apply (grows_bind 0 1);
    [apply (grows_invoke (SetFrequency _ _) I) | intros _].
  apply (grows_bind 0 1); [apply (grows_invoke (SetType _ _) eq_refl) |].
  intros _.
  apply (grows_bind 0 1); [apply (grows_invoke (Connect _ _) I) | intros _].
  apply (grows_bind 0 1); [apply (grows_invoke (Connect _ _) I) | intros _].
  apply (grows_bind 0 1);
    [apply (grows_invoke (SetValueAtTime _ _ _) eq_refl) | intros _].
  apply (grows_bind 1 0); [apply (grows_invoke (Start _ _) I) | intros _].
  apply (grows_bind 0 0); [apply (grows_invoke (Stop _ _) I) | intros _].
  apply grows_ret.
Qed.

Lemma grows_play_from pairs :
  forall t, grows (List.length pairs) (play_from b (tokens_of pairs) t).
Proof.
  induction pairs as [|[n d] pairs IH]; intros t.
  - apply grows_ret.
  - change (tokens_of ((n, d) :: pairs)) with (n :: d :: tokens_of pairs).
    cbn [play_from List.length].
    apply (grows_bind 1 (List.length pairs)).
    + apply grows_play_pair.
    + intros t'. apply IH.
Qed.

End Invariants.

Lemma parity_test n : negb (Nat.eqb (Nat.modulo n 2) 0) = Nat.odd n.
Proof.
  destruct (Nat.odd n) eqn:E.
  - now apply odd_count.
  - rewrite <- Nat.negb_even in E. apply negb_false_iff in E.
    apply Nat.even_spec in E as [m ->].
    now rewrite Nat.mul_comm, Nat.Div0.mod_mul.
Qed.

Lemma even_pairs parts :
  Nat.odd (List.length parts) = false ->
  exists pairs, pairs_of parts = Some pairs.
Proof.
  assert (H : forall n parts, (List.length parts <= n)%nat ->
              Nat.odd (List.length parts) = false ->
              exists pairs, pairs_of parts = Some pairs).
  { induction n as [|n IH]; intros [|x [|y rest]] Hlen Hodd;
      cbn in Hlen; try lia; try (now exists []); try discriminate.
    cbn [List.length] in Hodd. rewrite Nat.odd_succ_succ in Hodd.
    destruct (IH rest) as [ps Hps]; [lia | exact Hodd |].
    exists ((x, y) :: ps). cbn. now rewrite Hps. }
  now apply (H (List.length parts)).
Qed.

Section Shape.

Variable b : backend.

(** The [try] block, however it ends: it appends to the state, shows the
    pairs message or nothing, makes the audio context before any other
    call, and starts no more oscillators than there are pairs. *)
Lemma playSong_try_shape data w r w' :
  playSong_try b data w = (r, w') ->
  (fresh w <= fresh w')%nat
  /\ exists cs al,
      calls w' = calls w ++ cs /\ alerts w' = alerts w ++ al
      /\ (al = [] \/ (al = [pairs_message] /\ r = Normal tt /\ cs = []))
      /\ (cs = [] \/ exists cs', cs = NewAudioContext :: cs'
                                /\ Forall tone_call cs')
      /\ (2 * List.length (filter is_start cs)
          <= List.length (split_ws (trim data)))%nat.
Proof.
  unfold playSong_try. rewrite parity_test.
  destruct (Nat.odd (List.length (split_ws (trim data)))) eqn:Hodd.
  - intros H. inversion H; subst. cbn. split; [lia|].
    exists [], [pairs_message]. rewrite app_nil_r.
    repeat split; auto. cbn. lia.
  - destruct (even_pairs _ Hodd) as [pairs Hp].
    apply pairs_of_tokens in Hp. rewrite Hp. unfold bind at 1, invoke.
    destruct (rejects b (calls w) NewAudioContext) as [e|].
    + intros H. inversion H; subst. split; [lia|].
      exists [], []. rewrite !app_nil_r. repeat split; auto. cbn. lia.
    + intros H.
      destruct (grows_play_from b pairs _ _ _ _ H)
        as (Ha & Hf & cs & Hcs & Ht & Hn).
      cbn [calls alerts fresh] in *. split; [exact Hf|].
      exists (NewAudioContext :: cs), [].
      rewrite app_nil_r, Hcs, <- app_assoc.
      repeat split; auto.
      * right. now exists cs.
      * cbn [filter is_start]. rewrite length_tokens_of. lia.
Qed.

End Shape.

(** [playSong] only adds to what has happened: the earlier calls and
    alerts stay as they are, and one call of [playSong] shows at most
    one alert, on every input, in every state and on every backend. *)
Theorem playSong_appends b data w :
  exists cs al n,
    playSong b data w = (Normal tt, mkWorld (calls w ++ cs) (alerts w ++ al) n)
    /\ (List.length al <= 1)%nat /\ (fresh w <= n)%nat.
Proof.
  unfold playSong, try_catch.
  destruct (playSong_try b data w) as [[[] | e] w1] eqn:E;
    destruct (playSong_try_shape b data w _ _ E)
      as (Hf & cs & al & Hcs & Hal & Hshow & _).
  - exists cs, al, (fresh w1). split.
    + destruct w1 as [c a f]. cbn in *. now subst.
    + split; [|exact Hf].
      destruct Hshow as [-> | [-> _]]; cbn; lia.
  - exists cs, [js "Error playing song: " ++ toString e], (fresh w1). split.
    + unfold alert. rewrite Hcs, Hal.
      destruct Hshow as [-> | (_ & Hr & _)]; [|discriminate].
      now rewrite app_nil_r.
    + split; [cbn; lia | exact Hf].
Qed.

(** Whatever the song, the state and the backend, the calls one run of
    [playSong] adds are none at all, or one audio context followed by
    calls of the loop body only: a run never makes a second audio
    context, every waveform it sets is "square", every gain it sets is
    0.1, and it starts no more oscillators than the song has pairs. *)
Theorem every_run_shape b data w :
  exists cs,
    calls (snd (playSong b data w)) = calls w ++ cs
    /\ (cs = [] \/ exists cs', cs = NewAudioContext :: cs'
                                /\ Forall tone_call cs')
    /\ (2 * List.length (filter is_start cs)
        <= List.length (split_ws (trim data)))%nat.
Proof.
  unfold playSong, try_catch.
  destruct (playSong_try b data w) as [[[] | e] w1] eqn:E;
    destruct (playSong_try_shape b data w _ _ E)
      as (_ & cs & al & Hcs & _ & _ & Hshape & Hn);
    exists cs; cbn [snd alert calls]; auto.
Qed.

(** ** Runs without an alert *)

Section Silent.

Variable b : backend.

(** A loop body that ends normally has resolved its note and made all
    nine calls. *)
Lemma play_pair_normal note durtok t w t' w' :
  play_pair b note durtok t w = (Normal t', w') ->
  exists f,
    noteToFrequency note = Normal f
    /\ t' = add t (parseFloat durtok)
    /\ w' = mkWorld
              (calls w ++ tone_calls (fresh w) f t (parseFloat durtok))
              (alerts w) (S (S (fresh w))).
Proof.
  unfold play_pair, bind, lift.
  destruct (noteToFrequency note) as [f | e]; [|discriminate].
  unfold create, invoke. cbn [calls alerts fresh].
  repeat (destruct (rejects b _ _); [discriminate|]; cbn [calls alerts fresh]).
  unfold ret. intros H. inversion H; subst. exists f.
  repeat split. f_equal. repeat rewrite <- app_assoc. reflexivity.
Qed.

Lemma play_from_normal pairs :
  forall t w u w',
    play_from b (tokens_of pairs) t w = (Normal u, w') ->
    exists tones,
      Forall2 tone_of pairs tones
      /\ w' = mkWorld (calls w ++ trace_from (fresh w) t tones) (alerts w)
                (fresh w + 2 * List.length tones).
Proof.
  induction pairs as [|[n d] pairs IH]; intros t w u w' H.
  - cbn in H. inversion H; subst. exists []. split; [constructor|].
    cbn. rewrite app_nil_r, Nat.add_0_r. now destruct w'.
  - change (tokens_of ((n, d) :: pairs)) with (n :: d :: tokens_of pairs) in H.
    cbn [play_from] in H. unfold bind at 1 in H.
    destruct (play_pair b n d t w) as [[t1 | e] w1] eqn:E; [|discriminate].
    destruct (play_pair_normal _ _ _ _ _ _ E) as (f & Hf & -> & ->).
    destruct (IH _ _ _ _ H) as (tones & Ht & ->).
    exists ((f, parseFloat d) :: tones). split.
    + constructor; [now split | exact Ht].
    + cbn [calls alerts fresh trace_from List.length]. f_equal.
      * now rewrite <- app_assoc.
      * lia.
Qed.

End Silent.

Lemma tone_of_token p fd : tone_of p fd -> NoteToken (fst p).
Proof.
  intros [Hf _]. apply note_match_iff. unfold noteToFrequency in Hf.
  destruct (note_match (fst p)) as [m|]; [now exists m | discriminate].
Qed.

(** A [try] block that ends normally without an alert has played every
    pair. *)
Lemma playSong_try_silent b data w1 :
  playSong_try b data initial = (Normal tt, w1) ->
  alerts w1 = [] ->
  exists pairs tones,
    pairs_of (split_ws (trim data)) = Some pairs
    /\ Forall2 tone_of pairs tones
    /\ w1 = mkWorld (NewAudioContext :: trace_from 0 (currentTime b) tones)
              [] (2 * List.length pairs).
Proof.
  intros E Hsilent.
  unfold playSong_try in E. rewrite parity_test in E.
  destruct (Nat.odd (List.length (split_ws (trim data)))) eqn:Hodd.
  { inversion E; subst. discriminate Hsilent. }
  destruct (even_pairs _ Hodd) as [pairs Hp].
  rewrite (pairs_of_tokens _ _ Hp) in E. unfold bind at 1, invoke in E.
  destruct (rejects b (calls initial) NewAudioContext) as [e|];
    [discriminate E|].
  destruct (play_from_normal b pairs _ _ _ _ E) as (tones & Ht & ->).
  exists pairs, tones. split; [exact Hp|]. split; [exact Ht|].
  cbn. now rewrite (Forall2_length_eq _ _ _ Ht).
Qed.

(** A run without an alert is a [try] block that ended normally. *)
Lemma run_silent b data :
  alerts (snd (run b data)) = [] ->
  exists w1,
    playSong_try b data initial = (Normal tt, w1)
    /\ run b data = (Normal tt, w1) /\ alerts w1 = [].
Proof.
  unfold run, playSong, try_catch.
  destruct (playSong_try b data initial) as [[[] | e] w1] eqn:E.
  - intros H. now exists w1.
  - cbn. intros H. now destruct (alerts w1).
Qed.

(** No alert means the whole song was played: when a run of [playSong]
    shows no alert, the token count is even, every note token is in the
    grammar, and the calls are the audio context followed by the nine
    calls of one complete tone for every pair, in order. *)
Theorem silent_run_played_all b data :
  alerts (snd (run b data)) = [] ->
  exists pairs tones,
    pairs_of (split_ws (trim data)) = Some pairs
    /\ Forall2 tone_of pairs tones
    /\ Forall (fun p => NoteToken (fst p)) pairs
    /\ run b data
       = (Normal tt,
          mkWorld (NewAudioContext :: trace_from 0 (currentTime b) tones) []
            (2 * List.length pairs)).
Proof.
  intros Hsilent.
  destruct (run_silent b data Hsilent) as (w1 & Htry & Hrun & Hw1).
  destruct (playSong_try_silent b data w1 Htry Hw1)
    as (pairs & tones & Hp & Ht & ->).
  exists pairs, tones. split; [exact Hp|]. split; [exact Ht|].
  split; [|exact Hrun].
  clear Hp Htry Hrun Hw1 Hsilent. induction Ht as [|p fd ps ts H _ IH].
  - constructor.
  - constructor; [exact (tone_of_token p fd H) | exact IH].
Qed.

Lemma run_C4_D4 :
  run (browser (Fin 0)) (js "C4 0.5 D4 0.5")
  = (Normal tt,
     mkWorld
       (NewAudioContext
        :: trace_from 0 (Fin 0)
             [(Fin (frequency_at (semitone 67 (js "") (js "4"))),
               parseFloat (js "0.5"));
              (Fin (frequency_at (semitone 68 (js "") (js "4"))),
               parseFloat (js "0.5"))])
       [] 4).
Proof.
  unfold run.
  rewrite (playSong_accepted (browser (Fin 0)) (js "C4 0.5 D4 0.5")
             [(js "C4", js "0.5"); (js "D4", js "0.5")]
             [(Fin (frequency_at (semitone 67 (js "") (js "4"))),
               parseFloat (js "0.5"));
              (Fin (frequency_at (semitone 68 (js "") (js "4"))),
               parseFloat (js "0.5"))]
             initial).
  - reflexivity.
  - reflexivity.
  - repeat constructor; [exact note_C4 | exact note_D4].
  - intros h c. apply browser_takes. exact playable_C4_D4.
Qed.

Lemma silent_run_played_all_witness :
  exists pairs tones,
    pairs_of (split_ws (trim (js "C4 0.5 D4 0.5"))) = Some pairs
    /\ Forall2 tone_of pairs tones
    /\ Forall (fun p => NoteToken (fst p)) pairs
    /\ run (browser (Fin 0)) (js "C4 0.5 D4 0.5")
       = (Normal tt,
          mkWorld (NewAudioContext :: trace_from 0 (Fin 0) tones) []
            (2 * List.length pairs)).
Proof.
  apply (silent_run_played_all (browser (Fin 0)) (js "C4 0.5 D4 0.5")).
  now rewrite run_C4_D4.
Defined.

(** ** Start and stop times *)

Lemma start_times_tone osc f t d cs :
  start_times (tone_calls osc f t d ++ cs) = t :: start_times cs.
Proof. reflexivity. Qed.

Lemma stop_times_tone osc f t d cs :
  stop_times (tone_calls osc f t d ++ cs) = add t d :: stop_times cs.
Proof. reflexivity. Qed.

Lemma trace_chain tones :
  forall osc t,
    start_times (trace_from osc t tones) ++ [cursor_after t tones]
    = t :: stop_times (trace_from osc t tones).
Proof.
  induction tones as [|[f d] tones IH]; intros osc t; [reflexivity|].
  cbn [trace_from]. rewrite start_times_tone, stop_times_tone.
  rewrite cursor_after_cons. cbn [app]. f_equal. apply IH.
Qed.

Lemma trace_durations pairs tones :
  Forall2 tone_of pairs tones ->
  forall osc t,
    Forall2 (fun se p => snd se = add (fst se) (parseFloat (snd p)))
      (combine (start_times (trace_from osc t tones))
         (stop_times (trace_from osc t tones)))
      pairs.
Proof.
  induction 1 as [|p [f d] pairs tones [_ Hd] _ IH]; intros osc t.
  - constructor.
  - cbn [trace_from]. rewrite start_times_tone, stop_times_tone.
    cbn [combine]. constructor; [|apply IH].
    cbn in *. now rewrite Hd.
Qed.

(** In a run without an alert the tones follow one another without a gap
    and without an overlap: the first oscillator starts at the clock
    value read at entry, every oscillator stops at its start time plus
    the parsed duration of its pair, and the next one starts at exactly
    that time. *)
Theorem tones_back_to_back b data :
  alerts (snd (run b data)) = [] ->
  exists pairs final,
    pairs_of (split_ws (trim data)) = Some pairs
    /\ start_times (calls (snd (run b data))) ++ [final]
       = currentTime b :: stop_times (calls (snd (run b data)))
    /\ Forall2 (fun se p => snd se = add (fst se) (parseFloat (snd p)))
         (combine (start_times (calls (snd (run b data))))
            (stop_times (calls (snd (run b data)))))
         pairs.
Proof.
  intros Hsilent.
  destruct (run_silent b data Hsilent) as (w1 & Htry & -> & Hw1).
  destruct (playSong_try_silent b data w1 Htry Hw1)
    as (pairs & tones & Hp & Ht & ->).
  exists pairs, (cursor_after (currentTime b) tones).
  split; [exact Hp|]. cbn [snd calls]. split.
  - apply (trace_chain tones 0%nat (currentTime b)).
  - apply (trace_durations pairs tones Ht 0%nat (currentTime b)).
Qed.

Lemma tones_back_to_back_witness :
  exists pairs final,
    pairs_of (split_ws (trim (js "C4 0.5 D4 0.5"))) = Some pairs
    /\ start_times (calls (snd (run (browser (Fin 0)) (js "C4 0.5 D4 0.5"))))
       ++ [final]
       = Fin 0
         :: stop_times (calls (snd (run (browser (Fin 0))
                                      (js "C4 0.5 D4 0.5"))))
    /\ Forall2 (fun se p => snd se = add (fst se) (parseFloat (snd p)))
         (combine
            (start_times
               (calls (snd (run (browser (Fin 0)) (js "C4 0.5 D4 0.5")))))
            (stop_times
               (calls (snd (run (browser (Fin 0)) (js "C4 0.5 D4 0.5"))))))
         pairs.
Proof.
  apply (tones_back_to_back (browser (Fin 0)) (js "C4 0.5 D4 0.5")).
  now rewrite run_C4_D4.
Defined.

(** ** Failures of the backend *)

(** When the audio context cannot be made, no audio call is made at all
    and the caller still gets a normal return: a song with an even token
    count shows the backend's error in one alert, a song with an odd
    token count shows the pairs message as always. *)
Theorem audio_context_failure b data e :
  rejects b [] NewAudioContext = Some e ->
  run b data
  = (Normal tt,
     mkWorld []
       [if Nat.odd (List.length (split_ws (trim data))) then pairs_message
        else js "Error playing song: " ++ toString e]
       0).
Proof.
  intros Hrej. unfold run, playSong, try_catch, playSong_try.
  rewrite parity_test.
  destruct (Nat.odd (List.length (split_ws (trim data)))); [reflexivity|].
  unfold bind at 1.
  now rewrite (invoke_rejected b NewAudioContext initial e Hrej).
Qed.

Lemma audio_context_failure_witness :
  run no_audio (js "C4 1")
  = (Normal tt,
     mkWorld []
       [js "Error playing song: TypeError: AudioCtx is not a constructor"]
       0).
Proof.
  apply (audio_context_failure no_audio (js "C4 1")
           (TypeError (js "AudioCtx is not a constructor"))).
  reflexivity.
Defined.

Lemma stop_in_trace tones :
  forall osc t o when,
    In (Stop o when) (trace_from osc t tones) ->
    (osc <= o < osc + 2 * List.length tones)%nat.
Proof.
  induction tones as [|[f d] tones IH]; intros osc t o when H.
  - contradiction.
  - cbn [trace_from] in H. apply in_app_or in H as [H | H].
    + cbn in H.
      repeat (destruct H as [H | H]; [try discriminate H|]);
        try contradiction.
      inversion H; subst. cbn [List.length]. lia.
    + apply IH in H. cbn [List.length]. lia.
Qed.

Lemma length_start_times_trace tones :
  forall osc t,
    List.length (start_times (trace_from osc t tones)) = List.length tones.
Proof.
  induction tones as [|[f d] tones IH]; intros osc t; [reflexivity|].
  cbn [trace_from]. rewrite start_times_tone. cbn. now rewrite IH.
Qed.

Lemma length_stop_times_trace tones :
  forall osc t,
    List.length (stop_times (trace_from osc t tones)) = List.length tones.
Proof.
  induction tones as [|[f d] tones IH]; intros osc t; [reflexivity|].
  cbn [trace_from]. rewrite stop_times_tone. cbn. now rewrite IH.
Qed.

(** A tone whose stop time the backend rejects is left started.  When
    the calls of a pair up to [osc.start(t)] are accepted and its [stop]
    call is rejected (a browser does so when the cursor plus the parsed
    duration is negative, [NaN] or an infinity), the oscillator of that
    pair has been started and no [stop] call for it is ever made: the
    run ends with one more started oscillator than stopped ones. *)
Theorem rejected_stop_leaves_tone_started b data pairs tones n d later f e :
  pairs_of (split_ws (trim data)) = Some (pairs ++ (n, d) :: later) ->
  Forall2 tone_of pairs tones ->
  noteToFrequency n = Normal f ->
  (forall h c,
      In c (NewAudioContext
            :: trace_from 0 (currentTime b) tones
               ++ removelast
                    (tone_calls (2 * List.length tones) f
                       (cursor_after (currentTime b) tones)
                       (parseFloat d))) ->
      rejects b h c = None) ->
  (forall h,
      rejects b h
        (Stop (2 * List.length tones)
           (add (cursor_after (currentTime b) tones) (parseFloat d)))
      = Some e) ->
  In (Start (2 * List.length tones) (cursor_after (currentTime b) tones))
    (calls (snd (run b data)))
  /\ (forall when,
         ~ In (Stop (2 * List.length tones) when) (calls (snd (run b data))))
  /\ List.length (start_times (calls (snd (run b data))))
     = S (List.length (stop_times (calls (snd (run b data))))).
Proof.
  intros Hp Ht Hf Hacc Hrej.
  rewrite (playSong_stop_rejected b data pairs tones n d later f e
             Hp Ht Hf Hacc Hrej).
  cbn [snd calls tone_calls removelast]. split; [|split].
  - right. apply in_or_app. right. cbn. tauto.
  - intros when [H | H]; [discriminate H|].
    apply in_app_or in H as [H | H].
    + apply stop_in_trace in H. lia.
    + cbn in H.
      repeat (destruct H as [H | H]; [discriminate H|]). contradiction.
  - unfold start_times, stop_times. cbn [flat_map app].
    rewrite !flat_map_app, !length_app.
    fold (start_times (trace_from 0 (currentTime b) tones)).
    fold (stop_times (trace_from 0 (currentTime b) tones)).
    rewrite length_start_times_trace, length_stop_times_trace.
    cbn. lia.
Qed.

Lemma rejected_stop_leaves_tone_started_witness :
  In (Start 0 (Fin 0)) (calls (snd (run (browser (Fin 0)) (js "C4 x D4 1"))))
  /\ (forall when,
         ~ In (Stop 0 when)
             (calls (snd (run (browser (Fin 0)) (js "C4 x D4 1")))))
  /\ List.length
       (start_times (calls (snd (run (browser (Fin 0)) (js "C4 x D4 1")))))
     = S (List.length
            (stop_times
               (calls (snd (run (browser (Fin 0)) (js "C4 x D4 1")))))).
Proof.
  apply (rejected_stop_leaves_tone_started (browser (Fin 0))
           (js "C4 x D4 1") [] [] (js "C4") (js "x") [(js "D4", js "1")]
           (Fin (frequency_at (semitone 67 (js "") (js "4"))))
           (TypeError (js "time must be finite"))).
  - reflexivity.
  - constructor.
  - exact note_C4.
  - intros h c [<- | Hc]; [reflexivity|]. apply browser_accepts.
    cbn [trace_from app List.length Nat.mul cursor_after fold_left
           currentTime browser] in Hc.
    revert c Hc. apply tone_begun_well_formed.
    + apply float_low_note. cbn. lia.
    + apply finite_nonneg_Fin. lra.
  - intros h. reflexivity.
Defined.
